(** * sql_exporter: the scrape engine ([exporter.Gather]) and the per-target
      scrape ([target.Collect], [target.ping])

    A shallow embedding of [exporter.go] and of the target source file, with
    the theorems that settle the specification's claims about them.

    Conventions.
    - Instants and durations are nanosecond counts in [Z].  A [time.Duration]
      is an [int64]; [time.Since] saturates at the ends of that range.
    - A [float64] sample value is modelled by the rational number it denotes
      ([Q]); the only values built here are [0.0], [1.0] and a duration
      times [1e-9].  That product is computed as the code computes it, in
      IEEE 754 binary64 with rounding to nearest even (the Standard
      Library's [SpecFloat]), and is then read as a rational.
    - A Go interface value is modelled by the results of its methods; a
      method call on a nil interface value panics, and code that may panic
      returns a [result].
    - The sample channel is the list of the samples sent so far, oldest
      first; a send appends.  [Gather] keeps receiving until the channel is
      closed, and the channel is closed only after every producer returned,
      so every sample sent is received, in the order of the sends.
    - How goroutines interleave is decided by a schedule, and what the
      database driver answers by an oracle; both are fields of an
      environment [Env], and the theorems hold for every environment.
      Every order in which concurrent sends can reach the channel is the
      order of some schedule ([Interleaving_interleave]).
    - The code between two driver calls takes no time: [ctx.Err()] read
      twice with no driver call in between gives the same answer.
    - [Collect] and [Gather] as functions are one call that runs while no
      other call works on the same targets.  The HTTP server calls
      [Gather] once per request, so calls can overlap; what overlapping
      scrapes do to a target is modelled in [Overlap], as a pool of
      goroutines that run [ping] step by step, under every schedule and
      with any time between the steps. *)

From Stdlib Require Import ZArith QArith Qabs Qpower Floats.SpecFloat.
From stdpp Require Import base option list strings gmap sorting.

Open Scope Z_scope.

(** ** Written metrics and errors *)

(** [dto.Metric] of [client_model]: a label list and one optional payload
    per metric kind. *)
Record LabelPair := { lp_Name : string; lp_Value : string }.

Record dtoSummary := { SampleCount : Z; SampleSum : Q }.

Record dtoMetric := {
  Label : list LabelPair;
  Gauge : option Q;
  Counter : option Q;
  Summary : option dtoSummary;
  Untyped : option Q;
  Histogram : option dtoSummary;
}.

(** [&dto.Metric{}] *)
Definition empty_dtoMetric : dtoMetric :=
  {| Label := []; Gauge := None; Counter := None; Summary := None;
     Untyped := None; Histogram := None |}.

(** [dto.MetricType] *)
Inductive MetricType := COUNTER | GAUGE | SUMMARY | UNTYPED | HISTOGRAM.

(** Go [error] values.  [context.DeadlineExceeded] and [context.Canceled]
    are the two errors a context reports; [errorString] stands for any other
    error (a driver failure, say); [errDontKnowHowToHandle m] is
    [fmt.Errorf("don't know how to handle metric %v", m)]. *)
Inductive error :=
  | DeadlineExceeded
  | Canceled
  | errorString (msg : string)
  | errDontKnowHowToHandle (m : dtoMetric).

(** ** [dto.MetricFamily] *)

(** Pointer fields are options: [&dto.MetricFamily{}] has them all nil. *)
Record MetricFamily := {
  mf_Name : option string;
  mf_Help : option string;
  mf_Type : option MetricType;
  mf_Metric : list dtoMetric;
}.

(** ** Metric descriptors and samples *)

(** [prometheus.ValueType] *)
Inductive ValueType := CounterValue | GaugeValue | UntypedValue.

(** Modelled from the spec: the [MetricDesc] interface, whose declaration is
    not among the sources; "immutable identity (fully-qualified name, help,
    list of label names in a fixed order, list of constant label pairs)"
    together with the metric's type and the log context it was built in. *)
Record MetricDesc := {
  Name : string;
  Help : string;
  desc_ValueType : ValueType;
  ConstLabels : list LabelPair;
  Labels : list string;
  desc_LogContext : string;
}.

(** Modelled from the spec: the [Metric] interface, whose declaration is not
    among the sources.  [Gather] uses two methods: [Desc()], which is nil
    for a carrier without a descriptor, and [Write(out)], which fills [out]
    and returns an error or nil. *)
Record Metric := {
  Desc : option MetricDesc;
  Write : dtoMetric → dtoMetric * option error;
}.

(** Modelled from the spec: [NewMetric(desc, value)], "a pair of MetricDesc
    plus numeric value"; written out, the value goes to the payload of the
    descriptor's type and the constant labels to the label list. *)
Definition NewMetric (desc : MetricDesc) (value : Q) : Metric :=
  {| Desc := Some desc;
     Write := λ out,
       let out := {| Label := ConstLabels desc; Gauge := Gauge out;
                     Counter := Counter out; Summary := Summary out;
                     Untyped := Untyped out; Histogram := Histogram out |} in
       match desc_ValueType desc with
       | CounterValue =>
           ({| Label := Label out; Gauge := Gauge out; Counter := Some value;
               Summary := Summary out; Untyped := Untyped out;
               Histogram := Histogram out |}, None)
       | GaugeValue =>
           ({| Label := Label out; Gauge := Some value; Counter := Counter out;
               Summary := Summary out; Untyped := Untyped out;
               Histogram := Histogram out |}, None)
       | UntypedValue =>
           (out, Some (errorString "encountered unknown type"))
       end |}.

(** Modelled from the spec: [NewInvalidMetric(logContext, err)], "an
    invalid-metric carrier wraps an error and a log context; when written
    out it surfaces the error to the gather loop". *)
Definition NewInvalidMetric (logContext : string) (err : error) : Metric :=
  {| Desc := None; Write := λ out, (out, Some err) |}.

(** Equality of errors is decidable: [err != ctx.Err()] compares two error
    values. *)
Global Instance LabelPair_eq_dec : EqDecision LabelPair.
Proof. solve_decision. Defined.
Global Instance Q_eq_dec : EqDecision Q.
Proof. solve_decision. Defined.
Global Instance dtoSummary_eq_dec : EqDecision dtoSummary.
Proof. solve_decision. Defined.
Global Instance dtoMetric_eq_dec : EqDecision dtoMetric.
Proof. solve_decision. Defined.
Global Instance error_eq_dec : EqDecision error.
Proof. solve_decision. Defined.

(** ** Time and contexts *)

Definition int64_min : Z := - 2 ^ 63.
Definition int64_max : Z := 2 ^ 63 - 1.

(** [t.Sub(u)]: the difference as a [Duration], saturated. *)
Definition time_Sub (t u : Z) : Z := Z.max int64_min (Z.min int64_max (t - u)).

(** A context is known by its deadline; [context.Background()] has none. *)
Record Context := { ctx_deadline : option Z }.

Definition Background : Context := {| ctx_deadline := None |}.

(** [context.WithTimeout(parent, timeout)] called at instant [now]: the
    deadline is [now + timeout], or the parent's when that one is earlier. *)
Definition WithTimeout (parent : Context) (now timeout : Z) : Context :=
  let d := now + timeout in
  {| ctx_deadline :=
       Some (match ctx_deadline parent with
             | Some p => Z.min p d
             | None => d
             end) |}.

(** [ctx.Err()] read at instant [now]. *)
Definition ctx_Err (ctx : Context) (now : Z) : option error :=
  match ctx_deadline ctx with
  | Some d => if bool_decide (d ≤ now) then Some DeadlineExceeded else None
  | None => None
  end.

(** ** The world outside: clock, driver, scheduler *)

(** [*sql.DB] *)
Inductive DB := Handle (id : nat).

(** The calls of [OpenConnection] and [PingDB] made so far, with their
    answers.  These are the calls a target makes itself; what a collector
    does with the handle it is given is the collector's, and is not
    recorded. *)
Inductive Call :=
  | CallOpenConnection (logContext dsn : string) (r : DB + error)
  | CallPingDB (conn : DB) (r : option error).

Record World := {
  now : Z;
  history : list Call;
  task : nat;
}.

(** The functions [OpenConnection] and [PingDB] are not among the sources.
    They are taken as an oracle: given the state of the world and the
    arguments of the call, the time the call takes and what it returns
    ([inl conn] for [(conn, nil)], [inr err] for [(nil, err)]).  The
    schedule decides how concurrent senders interleave on the channel. *)
Record Env := {
  env_OpenConnection : World → Context → string → string → N * (DB + error);
  env_PingDB : World → Context → DB → N * option error;
  env_schedule : World → list nat;
}.

Definition OpenConnection (env : Env) (ctx : Context) (logContext dsn : string)
    (w : World) : (DB + error) * World :=
  let '(elapsed, r) := env_OpenConnection env w ctx logContext dsn in
  (r, {| now := now w + Z.of_N elapsed;
         history := history w ++ [CallOpenConnection logContext dsn r];
         task := task w |}).

Definition PingDB (env : Env) (ctx : Context) (conn : DB) (w : World)
  : option error * World :=
  let '(elapsed, r) := env_PingDB env w ctx conn in
  (r, {| now := now w + Z.of_N elapsed;
         history := history w ++ [CallPingDB conn r];
         task := task w |}).

(** ** Concurrent senders on one channel *)

Section interleave.
  Context {A : Type}.

(** The head of the [n]-th sender that still has something to send, and
    what remains. *)
Fixpoint take_nth (n : nat) (qs : list (list A)) : option (A * list (list A)) :=
  match qs with
  | [] => None
  | [] :: qs' => prod_map id (cons []) <$> take_nth n qs'
  | (x :: q) :: qs' =>
      match n with
      | O => Some (x, q :: qs')
      | S n' => prod_map id (cons (x :: q)) <$> take_nth n' qs'
      end
  end.

Fixpoint interleave_aux (fuel : nat) (sched : list nat) (qs : list (list A))
  : list A :=
  match fuel with
  | O => []
  | S fuel' =>
      match take_nth (hd O sched) qs with
      | Some (x, qs') => x :: interleave_aux fuel' (tl sched) qs'
      | None =>
          match take_nth O qs with
          | Some (x, qs') => x :: interleave_aux fuel' (tl sched) qs'
          | None => []
          end
      end
  end.

(** What the channel delivers when the senders [qs] run concurrently:
    each step the schedule names the sender whose next sample goes
    through (the first sender when it names none that is left). *)
Definition interleave (sched : list nat) (qs : list (list A)) : list A :=
  interleave_aux (length (concat qs)) sched qs.

(** The orders in which the sends of concurrent senders can reach the
    channel: every step, the next sample of some sender. *)
Inductive Interleaving : list (list A) → list A → Prop :=
  | Interleaving_done qs :
      Forall (λ q, q = []) qs → Interleaving qs []
  | Interleaving_send qs i x q l :
      qs !! i = Some (x :: q) → Interleaving (<[i:=q]> qs) l →
      Interleaving qs (x :: l).

(** The number of senders before the [i]-th that still have something to
    send. *)
Fixpoint rank (qs : list (list A)) (i : nat) : nat :=
  match i, qs with
  | O, _ => O
  | S _, [] => O
  | S i', [] :: qs' => rank qs' i'
  | S i', (_ :: _) :: qs' => S (rank qs' i')
  end.
End interleave.

(** ** [float64] *)

Module Float64.

(** Binary64: 53 bits of mantissa, exponents below 1024. *)
Definition prec : Z := 53.
Definition emax : Z := 1024.

(** [float64(i)] for an integer [i]. *)
Definition of_int (i : Z) : spec_float := binary_normalize prec emax i 0 false.

(** The constant [1e-9]: the binary64 number nearest to it,
    [0x3E112E0BE826D695]. *)
Definition c_1e_9 : spec_float := S754_finite false 4835703278458517 (-82).

(** [x * y] *)
Definition mul : spec_float → spec_float → spec_float := SFmul prec emax.

(** The rational that a finite number denotes. *)
Definition to_Q (x : spec_float) : Q :=
  match x with
  | S754_finite s m e =>
      Qred (inject_Z (if s then Z.neg m else Z.pos m) * Qpower 2 e)
  | _ => 0%Q
  end.

(** What [k] shifts to the right leave of [m]: the quotient, and of the
    remainder what the round bit and the sticky bit tell. *)
Definition shifted (m : Z) (k : nat) (mrs : shr_record) : Prop :=
  0 ≤ shr_m mrs ∧
  ∃ low, 0 ≤ low ∧ low < 2 ^ Z.of_nat k ∧
    2 * m = shr_m mrs * 2 ^ (Z.of_nat k + 1) +
            (if shr_r mrs then 2 ^ Z.of_nat k else 0) + low ∧
    (shr_s mrs = true ↔ low ≠ 0).

End Float64.

(** ** The target *)

Module Target.

(** The capacity of the channel; a full channel only makes the senders
    wait, so the capacity plays no part in what is sent or received. *)
Definition capMetricChan : Z := 1000.
Definition upMetricName : string := "up".
Definition upMetricHelp : string :=
  "1 if the target is reachable, or 0 if the scrape failed".
Definition scrapeDurationName : string := "scrape_duration_seconds".
Definition scrapeDurationHelp : string :=
  "How long it took to scrape the target in seconds".

(** Modelled from the spec: the [Collector] interface, implemented outside
    the sources, "a named bundle of (query x metrics) that runs against a
    single connection and produces metrics".  One run of
    [Collect(ctx, conn, ch)] is known by the time it takes and the samples
    it sends, given the world it starts in. *)
Record Collector := {
  collector_Collect : World → Context → option DB → N * list Metric;
}.

Record target := {
  name : string;
  dsn : string;
  collectors : list Collector;
  constLabels : gmap string string;
  upDesc : MetricDesc;
  scrapeDurationDesc : MetricDesc;
  logContext : string;
  conn : option DB;
}.

Definition set_conn (t : target) (c : DB) : target :=
  {| name := name t; dsn := dsn t; collectors := collectors t;
     constLabels := constLabels t; upDesc := upDesc t;
     scrapeDurationDesc := scrapeDurationDesc t; logContext := logContext t;
     conn := Some c |}.

(** Modelled from the spec: [NewAutomaticMetricDesc], the "auto-metric
    variant ... constructed directly by Target for up and
    scrape_duration_seconds; it carries only constant labels". *)
Definition NewAutomaticMetricDesc (logContext name help : string)
    (valueType : ValueType) (constLabels : list LabelPair) : MetricDesc :=
  {| Name := name; Help := help; desc_ValueType := valueType;
     ConstLabels := constLabels; Labels := []; desc_LogContext := logContext |}.

(** [prometheus.LabelPairSorter]: by name. *)
Definition LabelPair_le (a b : LabelPair) : Prop :=
  String.leb (lp_Name a) (lp_Name b) = true.
Global Instance LabelPair_le_dec : RelDecision LabelPair_le.
Proof. intros a b. unfold LabelPair_le. apply _. Defined.

Section NewTarget.
(** [config.CollectorConfig] and [NewCollector] are not among the sources;
    [quote] is the [%q] verb of [fmt.Sprintf]. *)
  Context {CollectorConfig : Type}.
  Variable NewCollector :
    string → CollectorConfig → list LabelPair → Collector + error.
  Variable quote : string → string.

Fixpoint new_collectors (logContext : string) (constLabelPairs : list LabelPair)
    (ccs : list CollectorConfig) : list Collector + error :=
  match ccs with
  | [] => inl []
  | cc :: ccs' =>
      match NewCollector logContext cc constLabelPairs with
      | inr err => inr err
      | inl c =>
          match new_collectors logContext constLabelPairs ccs' with
          | inr err => inr err
          | inl cs => inl (c :: cs)
          end
      end
  end.

Definition NewTarget (logContext name dsn : string) (ccs : list CollectorConfig)
    (constLabels : gmap string string) : target + error :=
  let logContext := logContext +:+ ", target=" +:+ quote name in
  let constLabelPairs :=
    merge_sort LabelPair_le
      ((λ nv, {| lp_Name := nv.1; lp_Value := nv.2 |}) <$> map_to_list constLabels) in
  match new_collectors logContext constLabelPairs ccs with
  | inr err => inr err
  | inl collectors =>
      let upDesc :=
        NewAutomaticMetricDesc logContext upMetricName upMetricHelp
          GaugeValue constLabelPairs in
      let scrapeDurationDesc :=
        NewAutomaticMetricDesc logContext scrapeDurationName scrapeDurationHelp
          GaugeValue constLabelPairs in
      inl {| name := name; dsn := dsn; collectors := collectors;
             constLabels := constLabels; upDesc := upDesc;
             scrapeDurationDesc := scrapeDurationDesc;
             logContext := logContext; conn := None |}
  end.
End NewTarget.

(** [boolToFloat64] *)
Definition boolToFloat64 (value : bool) : Q :=
  if value then 1%Q else 0%Q.

(** [target.ping].  The three parts of the body are three steps; a step
    that executes a [return] yields [inr] of the returned error. *)

(** [if t.conn == nil { ... }] *)
Definition ping_open (env : Env) (ctx : Context) (t : target) (w : World)
  : (unit + error) * target * World :=
  match conn t with
  | None =>
      let '(r, w) := OpenConnection env ctx (logContext t) (dsn t) w in
      match r with
      | inr err =>
          if decide (Some err ≠ ctx_Err ctx (now w))
          then (inr err, t, w)
          else (inl (), t, w)
      | inl conn => (inl (), set_conn t conn, w)
      end
  | Some _ => (inl (), t, w)
  end.

(** [if t.conn != nil && ctx.Err() == nil { ... }] *)
Definition ping_check (env : Env) (ctx : Context) (t : target) (w : World)
  : (unit + error) * World :=
  match conn t, ctx_Err ctx (now w) with
  | Some c, None =>
      let '(r, w) := PingDB env ctx c w in
      match r with
      | Some err =>
          if decide (Some err ≠ ctx_Err ctx (now w))
          then (inr err, w)
          else (inl (), w)
      | None => (inl (), w)
      end
  | _, _ => (inl (), w)
  end.

Definition ping (env : Env) (ctx : Context) (t : target) (w : World)
  : option error * target * World :=
  let '(r, t, w) := ping_open env ctx t w in
  match r with
  | inr err => (Some err, t, w)
  | inl _ =>
      let '(r, w) := ping_check env ctx t w in
      match r with
      | inr err => (Some err, t, w)
      | inl _ => (ctx_Err ctx (now w), t, w)
      end
  end.

(** [float64(d) * 1e-9] for a duration [d] *)
Definition seconds (d : Z) : Q :=
  Float64.to_Q (Float64.mul (Float64.of_int d) Float64.c_1e_9).

(** The collectors of a target that is up: one goroutine each, all started
    in the same world; what they send reaches the channel as the schedule
    interleaves it, and [wg.Wait()] returns when the slowest is done. *)
Definition run_collectors (env : Env) (ctx : Context) (t : target) (w : World)
  : list Metric * World :=
  let runs := (λ c, collector_Collect c w ctx (conn t)) <$> collectors t in
  (interleave (env_schedule env w) (snd <$> runs),
   {| now := now w + Z.of_N (foldr N.max 0%N (fst <$> runs));
      history := history w; task := task w |}).

(** [target.Collect]: the samples it and its collectors send, in the order
    of the sends; the target afterwards; the world afterwards. *)
Definition Collect (env : Env) (ctx : Context) (t : target) (w : World)
  : list Metric * target * World :=
  let scrapeStart := now w in
  let '(err, t, w) := ping env ctx t w in
  let '(ch, targetUp) :=
    match err with
    | Some err => ([NewInvalidMetric (logContext t) err], false)
    | None => ([], true)
    end in
  let ch := ch ++ [NewMetric (upDesc t) (boolToFloat64 targetUp)] in
  let '(sent, w) :=
    if targetUp then run_collectors env ctx t w else ([], w) in
  let ch := ch ++ sent in
  let ch :=
    ch ++ [NewMetric (scrapeDurationDesc t)
             (seconds (time_Sub (now w) scrapeStart))] in
  (ch, t, w).

End Target.

(** ** Results of code that may panic *)

Inductive result (A : Type) :=
  | Returned (a : A)
  | Panicked.
Arguments Returned {A} a.
Arguments Panicked {A}.

Definition result_bind {A B} (r : result A) (k : A → result B) : result B :=
  match r with
  | Returned a => k a
  | Panicked => Panicked
  end.

(** ** [exporter.Gather]: the loop that drains the channel *)

Module Exporter.

(** The loop's state: the map [dtoMetricFamilies] and the multi-error
    [errs]. *)
Record gather_state := {
  dtoMetricFamilies : gmap string MetricFamily;
  errs : list error;
}.

Definition gather_init : gather_state :=
  {| dtoMetricFamilies := ∅; errs := [] |}.

(** [dtoMetricFamily.Metric = append(dtoMetricFamily.Metric, dtoMetric)] *)
Definition append_Metric (mf : MetricFamily) (m : dtoMetric) : MetricFamily :=
  {| mf_Name := mf_Name mf; mf_Help := mf_Help mf; mf_Type := mf_Type mf;
     mf_Metric := mf_Metric mf ++ [m] |}.

(** One iteration of [for metric := range metricChan].  The family in the
    map is a pointer, so the append at the end of the body is seen through
    the map: it is an insert of the extended family under the same key.
    Calling [Name()] on a nil descriptor panics. *)
Definition gather_step (st : gather_state) (metric : Metric)
  : result gather_state :=
  let '(dtoMetric, err) := Write metric empty_dtoMetric in
  match err with
  | Some err =>
      Returned {| dtoMetricFamilies := dtoMetricFamilies st;
                  errs := errs st ++ [err] |}
  | None =>
      match Desc metric with
      | None => Panicked
      | Some metricDesc =>
          match dtoMetricFamilies st !! Name metricDesc with
          | Some dtoMetricFamily =>
              Returned
                {| dtoMetricFamilies :=
                     <[Name metricDesc := append_Metric dtoMetricFamily dtoMetric]>
                       (dtoMetricFamilies st);
                   errs := errs st |}
          | None =>
              let new (ty : MetricType) :=
                {| mf_Name := Some (Name metricDesc);
                   mf_Help := Some (Help metricDesc);
                   mf_Type := Some ty;
                   mf_Metric := [] |} in
              match Gauge dtoMetric, Counter dtoMetric with
              | Some _, _ =>
                  Returned
                    {| dtoMetricFamilies :=
                         <[Name metricDesc := append_Metric (new GAUGE) dtoMetric]>
                           (dtoMetricFamilies st);
                       errs := errs st |}
              | None, Some _ =>
                  Returned
                    {| dtoMetricFamilies :=
                         <[Name metricDesc := append_Metric (new COUNTER) dtoMetric]>
                           (dtoMetricFamilies st);
                       errs := errs st |}
              | None, None =>
                  Returned
                    {| dtoMetricFamilies := dtoMetricFamilies st;
                       errs := errs st ++ [errDontKnowHowToHandle dtoMetric] |}
              end
          end
      end
  end.

(** The whole loop over what the channel delivers. *)
Fixpoint gather_loop (st : gather_state) (metricChan : list Metric)
  : result gather_state :=
  match metricChan with
  | [] => Returned st
  | metric :: rest => result_bind (gather_step st metric) (λ st', gather_loop st' rest)
  end.

(** The tail of [Gather]: the families of the map as a list, and [errs].
    Go ranges over a map in an unspecified order; the list is
    [map_to_list]'s, and everything proved about it below is a property of
    its elements or of its set of names. *)
Definition gather_result (st : gather_state) : list MetricFamily * list error :=
  ((map_to_list (dtoMetricFamilies st)).*2, errs st).

Definition gather_chan (metricChan : list Metric)
  : result (list MetricFamily * list error) :=
  result_bind (gather_loop gather_init metricChan) (λ st, Returned (gather_result st)).

(** Modelled from the spec: the globals of [config.Config], a package that
    is not among the sources; durations in nanoseconds. *)
Record GlobalConfig := {
  MinInterval : Z;
  ScrapeTimeout : Z;
  ScrapeTimeoutOffset : Z;
  MaxConnections : Z;
}.

Record Config := { Globals : GlobalConfig }.

(** The [exporter] struct; the targets are pointers, so what a scrape does
    to a target's connection field is there at the next scrape.  The fields
    [jobs] and [defaultGatherer] are not read by [Gather]. *)
Record exporter := {
  config : Config;
  targets : list Target.target;
}.

(** The context [Gather] creates when it starts at [now]. *)
Definition Gather_ctx (e : exporter) (now : Z) : Context :=
  WithTimeout Background now (ScrapeTimeout (Globals (config e))).

(** The goroutine of the [i]-th target starts in the world of the call. *)
Definition spawn (w : World) (i : nat) : World :=
  {| now := now w; history := history w; task := S i |}.

(** The goroutines [Gather] starts: [Collect] of every target, under the
    context of the scrape. *)
Definition Gather_runs (env : Env) (e : exporter) (w : World)
  : list (list Metric * Target.target * World) :=
  imap (λ i t, Target.Collect env (Gather_ctx e (now w)) t (spawn w i))
    (targets e).

(** What the channel delivers to the loop: the sends of the targets,
    interleaved. *)
Definition Gather_chan (env : Env) (e : exporter) (w : World) : list Metric :=
  interleave (env_schedule env w) ((λ r, r.1.1) <$> Gather_runs env e w).

(** [exporter.Gather]: the families and errors it returns (unless it
    panics), and the exporter with its targets as the scrape leaves
    them. *)
Definition Gather (env : Env) (e : exporter) (w : World)
  : result (list MetricFamily * list error) * exporter :=
  (gather_chan (Gather_chan env e w),
   {| config := config e; targets := (λ r, r.1.2) <$> Gather_runs env e w |}).

End Exporter.

(** ** Vocabulary of the statements *)

(** The kind of a written metric: the payload that is set, gauge and
    counter first as in [Gather]'s switch. *)
Definition written_type (m : dtoMetric) : option MetricType :=
  match Gauge m, Counter m, Summary m, Untyped m, Histogram m with
  | Some _, _, _, _, _ => Some GAUGE
  | None, Some _, _, _, _ => Some COUNTER
  | None, None, Some _, _, _ => Some SUMMARY
  | None, None, None, Some _, _ => Some UNTYPED
  | None, None, None, None, Some _ => Some HISTOGRAM
  | None, None, None, None, None => None
  end.

(** [s] is a valid sample: [Write] succeeds with [dm], and the descriptor
    is [d]. *)
Definition writes (s : Metric) (dm : dtoMetric) (d : MetricDesc) : Prop :=
  Write s empty_dtoMetric = (dm, None) ∧ Desc s = Some d.

(** [s] is a sample whose [Write] fails with [e]. *)
Definition write_fails (s : Metric) (e : error) : Prop :=
  ∃ dm, Write s empty_dtoMetric = (dm, Some e).

(** A sample that [Gather] can process: when its [Write] succeeds it has a
    descriptor. *)
Definition well_formed (s : Metric) : Prop :=
  ∀ dm, Write s empty_dtoMetric = (dm, None) → is_Some (Desc s).

(** The sample carries the metric name [n]. *)
Definition has_name (n : string) (m : Metric) : bool :=
  match Desc m with
  | Some d => bool_decide (Name d = n)
  | None => false
  end.

(** The number of samples named [n] in a channel's content. *)
Definition count_named (n : string) (ch : list Metric) : nat :=
  length (filter (λ m, has_name n m = true) ch).

Module ExporterSpec.
Import Exporter.

(** The number of samples held by the families of the map. *)
Definition total_samples (m : gmap string MetricFamily) : nat :=
  sum_list_with (λ kv, length (mf_Metric kv.2)) (map_to_list m).

(** What the loop maintains about a family stored under [n], after the
    samples [l] went through. *)
Record family_ok (l : list Metric) (n : string) (f : MetricFamily) : Prop := {
  fam_name : mf_Name f = Some n;
  fam_type : mf_Type f = Some GAUGE ∨ mf_Type f = Some COUNTER;
  fam_first : ∃ s d dm rest,
    s ∈ l ∧ writes s dm d ∧ Name d = n ∧ mf_Help f = Some (Help d) ∧
    mf_Type f = written_type dm ∧ mf_Metric f = dm :: rest;
  fam_from : ∀ dm, dm ∈ mf_Metric f →
    ∃ s d, s ∈ l ∧ writes s dm d ∧ Name d = n;
}.

(** Where a processed sample went: its error is in the error list, or its
    written form is in the family of its name, or it was refused as
    neither gauge nor counter. *)
Definition accounted (st : gather_state) (s : Metric) : Prop :=
  (∃ e, write_fails s e ∧ e ∈ errs st) ∨
  (∃ dm d f, writes s dm d ∧ dtoMetricFamilies st !! Name d = Some f ∧
             dm ∈ mf_Metric f) ∨
  (∃ dm d, writes s dm d ∧ Gauge dm = None ∧ Counter dm = None ∧
           errDontKnowHowToHandle dm ∈ errs st).

(** Where an error of the list came from. *)
Definition error_from (l : list Metric) (e : error) : Prop :=
  ∃ s, s ∈ l ∧
    (write_fails s e ∨
     ∃ dm d, writes s dm d ∧ Gauge dm = None ∧ Counter dm = None ∧
             e = errDontKnowHowToHandle dm).

Record loop_inv (l : list Metric) (st : gather_state) : Prop := {
  inv_fams : ∀ n f, dtoMetricFamilies st !! n = Some f → family_ok l n f;
  inv_errs : ∀ e, e ∈ errs st → error_from l e;
  inv_count : (length (errs st) + total_samples (dtoMetricFamilies st))%nat = length l;
  inv_all : ∀ s, s ∈ l → accounted st s;
}.

(** A step only adds: errors stay in the list, samples stay in their
    family. *)
Definition grows (st st' : gather_state) : Prop :=
  (∀ e, e ∈ errs st → e ∈ errs st') ∧
  (∀ n f, dtoMetricFamilies st !! n = Some f →
     ∃ f', dtoMetricFamilies st' !! n = Some f' ∧
           ∀ dm, dm ∈ mf_Metric f → dm ∈ mf_Metric f').

(** The channel's samples of one name agree on help text and kind. *)
Definition consistent (l : list Metric) : Prop :=
  ∀ s1 s2 d1 d2 dm1 dm2,
    s1 ∈ l → s2 ∈ l → writes s1 dm1 d1 → writes s2 dm2 d2 →
    Name d1 = Name d2 →
    Help d1 = Help d2 ∧ written_type dm1 = written_type dm2.

End ExporterSpec.

(** ** Vocabulary for the target *)

Module TargetSpec.
Import Target.

(** What each collector of [t] sends when started in world [w]. *)
Definition collector_sends (ctx : Context) (t : target) (w : World)
  : list (list Metric) :=
  (λ c, (collector_Collect c w ctx (conn t)).2) <$> collectors t.

(** What the collector goroutines of one [Collect] send on the channel:
    nothing when the probe fails (no collector is started), and otherwise
    the sends of all collectors, as the schedule interleaves them. *)
Definition collector_samples (env : Env) (ctx : Context) (t : target) (w : World)
  : list Metric :=
  let '(err, t1, w1) := ping env ctx t w in
  match err with
  | Some _ => []
  | None => interleave (env_schedule env w1) (collector_sends ctx t1 w1)
  end.


Definition successful_open (c : Call) : bool :=
  match c with
  | CallOpenConnection _ _ (inl _) => true
  | _ => false
  end.

Definition ping_of (conn : DB) (c : Call) : Prop :=
  ∃ r, c = CallPingDB conn r.

(** What the probe of a target that has a handle comes to: nothing when
    the context is done, one [PingDB] otherwise. *)
Definition ping_handle (env : Env) (ctx : Context) (c : DB) (w : World)
  : option error * World :=
  match ctx_Err ctx (now w) with
  | Some e => (Some e, w)
  | None =>
      let '(r, w') := PingDB env ctx c w in
      match r with
      | Some e => (Some e, w')
      | None => (ctx_Err ctx (now w'), w')
      end
  end.

(** Time passes. *)
Definition idle (w : World) (d : N) : World :=
  {| now := now w + Z.of_N d; history := history w; task := task w |}.

(** The calls of a scrape that runs alone (no other scrape of the target
    runs at the same time) and takes [t] to [t']. *)
Definition scrape_calls (t t' : target) (calls : list Call) : Prop :=
  match conn t with
  | Some c => t' = t ∧ (calls = [] ∨ ∃ r, calls = [CallPingDB c r])
  | None =>
      (t' = t ∧ ∃ err, calls = [CallOpenConnection (logContext t) (dsn t) (inr err)]) ∨
      (∃ c, t' = set_conn t c ∧
         (calls = [CallOpenConnection (logContext t) (dsn t) (inl c)] ∨
          ∃ r, calls = [CallOpenConnection (logContext t) (dsn t) (inl c);
                        CallPingDB c r]))
  end.

End TargetSpec.

(** ** The claims about the target as the specification words them *)

Module TargetClaims.
Import Target TargetSpec.



End TargetClaims.

(** ** The claims about [Gather] as the specification words them *)

Module ExporterClaims.
Import Exporter ExporterSpec.

(** "every family's samples share one type" *)
Definition samples_share_type (f : MetricFamily) : Prop :=
  ∀ dm1 dm2, dm1 ∈ mf_Metric f → dm2 ∈ mf_Metric f →
    written_type dm1 = written_type dm2.

Definition families_share_type (env : Env) (e : exporter) (w : World) : Prop :=
  ∀ fams errs, (Gather env e w).1 = Returned (fams, errs) →
    ∀ f, f ∈ fams → samples_share_type f.

(** "a sample ... whose written form is neither gauge nor counter,
    contributes to the error list and to no family" *)
Definition untyped_samples_refused (env : Env) (e : exporter) (w : World) : Prop :=
  ∀ fams errs, (Gather env e w).1 = Returned (fams, errs) →
    ∀ s dm d, s ∈ Gather_chan env e w → writes s dm d →
      Gauge dm = None → Counter dm = None →
      errDontKnowHowToHandle dm ∈ errs ∧ ∀ f, f ∈ fams → dm ∉ mf_Metric f.

(** The effective deadline the specification describes: the budget
    [scrape_timeout] from the start of the scrape, and
    [scrape_timeout_offset] taken off the deadline of the caller upstream
    when there is one. *)
Definition spec_effective_deadline (g : GlobalConfig) (now : Z)
    (upstream : option Z) : Z :=
  match upstream with
  | Some u => Z.min (now + ScrapeTimeout g) (u - ScrapeTimeoutOffset g)
  | None => now + ScrapeTimeout g
  end.

Definition deadline_composed_with_offset (e : exporter) (now : Z)
    (upstream : option Z) : Prop :=
  ctx_deadline (Gather_ctx e now) =
  Some (spec_effective_deadline (Globals (config e)) now upstream).

End ExporterClaims.

(** ** Sample inputs *)

Module Samples.
Import Target Exporter.

Definition desc (n h : string) (ty : ValueType) : MetricDesc :=
  {| Name := n; Help := h; desc_ValueType := ty; ConstLabels := [];
     Labels := []; desc_LogContext := "job=mssql" |}.

Definition gauge_m : Metric := NewMetric (desc "m" "a gauge" GaugeValue) 1%Q.
Definition counter_m : Metric := NewMetric (desc "m" "a counter" CounterValue) 2%Q.
Definition gauge_k : Metric := NewMetric (desc "k" "another" GaugeValue) 5%Q.

(** A sample of another implementation of [Metric]: it writes an untyped
    value. *)
Definition untyped_m : Metric :=
  {| Desc := Some (desc "m" "a gauge" UntypedValue);
     Write := λ out,
       ({| Label := Label out; Gauge := Gauge out; Counter := Counter out;
           Summary := Summary out; Untyped := Some 3%Q;
           Histogram := Histogram out |}, None) |}.

(** 10s and 500ms, in nanoseconds. *)
Definition globals : GlobalConfig :=
  {| MinInterval := 0; ScrapeTimeout := 10000000000;
     ScrapeTimeoutOffset := 500000000; MaxConnections := 3 |}.

(** A target with two collectors, as [NewTarget] builds it, and drivers
    for it. *)
Definition collector_m : Collector :=
  {| collector_Collect := λ _ _ _, (10%N, [counter_m]) |}.
Definition collector_k : Collector :=
  {| collector_Collect := λ _ _ _, (20%N, [gauge_k; gauge_k]) |}.

Definition db1 : target :=
  {| name := "db1"; dsn := "sqlserver://db1";
     collectors := [collector_m; collector_k]; constLabels := ∅;
     upDesc :=
       NewAutomaticMetricDesc "job=mssql, target=db1" upMetricName upMetricHelp
         GaugeValue [];
     scrapeDurationDesc :=
       NewAutomaticMetricDesc "job=mssql, target=db1" scrapeDurationName
         scrapeDurationHelp GaugeValue [];
     logContext := "job=mssql, target=db1"; conn := None |}.

(** The server answers: open takes 5ns, ping 3ns. *)
Definition env_up : Env :=
  {| env_OpenConnection := λ _ _ _ _, (5%N, inl (Handle 7));
     env_PingDB := λ _ _ _, (3%N, None);
     env_schedule := λ _, [1; 0; 1]%nat |}.

(** The server refuses connections. *)
Definition env_down : Env :=
  {| env_OpenConnection := λ _ _ _ _, (5%N, inr (errorString "connection refused"));
     env_PingDB := λ _ _ _, (3%N, None);
     env_schedule := λ _, [] |}.

(** The handle opens in 5ns; the ping hangs and comes back with the
    context's error 195ns later (at the deadline of [ctx_live] below when
    the scrape starts in [w0]). *)
Definition env_slow_ping : Env :=
  {| env_OpenConnection := λ _ _ _ _, (5%N, inl (Handle 7));
     env_PingDB := λ _ _ _, (195%N, Some DeadlineExceeded);
     env_schedule := λ _, [] |}.

(** The target [db1] with other collectors, and an exporter of given
    targets. *)
Definition target_with (cs : list Collector) : target :=
  {| name := name db1; dsn := dsn db1; collectors := cs;
     constLabels := constLabels db1; upDesc := upDesc db1;
     scrapeDurationDesc := scrapeDurationDesc db1;
     logContext := logContext db1; conn := conn db1 |}.

Definition exporter_of (ts : list target) : exporter :=
  {| config := {| Globals := globals |}; targets := ts |}.

(** A collector that sends a gauge and a counter under one name, and one
    that sends a gauge and then an untyped sample under one name. *)
Definition collector_mixed : Collector :=
  {| collector_Collect := λ _ _ _, (10%N, [gauge_m; counter_m]) |}.
Definition collector_untyped : Collector :=
  {| collector_Collect := λ _ _ _, (10%N, [gauge_m; untyped_m]) |}.

(** The family the two samples of [collector_mixed] end up in. *)
Definition family_mixed : MetricFamily :=
  {| mf_Name := Some "m"; mf_Help := Some "a gauge"; mf_Type := Some GAUGE;
     mf_Metric := [ (Write gauge_m empty_dtoMetric).1;
                    (Write counter_m empty_dtoMetric).1 ] |}.

Definition w0 : World := {| now := 100; history := []; task := 0 |}.

(** A context with 200ns to go at [w0], and one that expired before. *)
Definition ctx_live : Context := WithTimeout Background 100 200.

End Samples.

(** ** Vocabulary for [NewTarget] *)

Module NewTargetSpec.
Import Target.

(** [&dto.LabelPair{Name: n, Value: v}] for an entry of the label map. *)
Definition to_LabelPair (nv : string * string) : LabelPair :=
  {| lp_Name := nv.1; lp_Value := nv.2 |}.

(** The constant label pairs [NewTarget] builds when the loop over the map
    visits its entries in the order [entries]: the pairs, sorted. *)
Definition sorted_pairs (entries : list (string * string)) : list LabelPair :=
  merge_sort LabelPair_le (to_LabelPair <$> entries).

(** The log context of the target: [fmt.Sprintf("%s, target=%q", ...)]. *)
Definition target_logContext (quote : string → string) (logContext name : string)
  : string :=
  logContext +:+ ", target=" +:+ quote name.

End NewTargetSpec.

(** ** [NewExporter] *)

Module ExporterNew.
Import Exporter.

Section NewExporter.
  (** The packages [config] and the file that defines [Job] are not among
      the sources: [config.Load], the field [c.Jobs], [NewJob] and
      [job.Targets()] are taken as they come, and so is the type of the
      default gatherer. *)
  Context {JobConfig Job Gatherer : Type}.
  Variable Load : string → Config + error.
  Variable Jobs : Config → list JobConfig.
  Variable NewJob : JobConfig → Job + error.
  Variable Targets : Job → list Target.target.

(** The [exporter] struct with all its fields: the two that [Gather] reads,
    and [jobs] and [defaultGatherer]. *)
Record exporter_struct := {
  exp_core : exporter;
  exp_jobs : list Job;
  exp_defaultGatherer : Gatherer;
}.

(** The loop [for _, jc := range c.Jobs], with the two slices it appends
    to. *)
Fixpoint new_jobs (jcs : list JobConfig) (jobs : list Job)
    (targets : list Target.target) : (list Job * list Target.target) + error :=
  match jcs with
  | [] => inl (jobs, targets)
  | jc :: jcs' =>
      match NewJob jc with
      | inr err => inr err
      | inl job => new_jobs jcs' (jobs ++ [job]) (targets ++ Targets job)
      end
  end.

Definition NewExporter (configFile : string) (defaultGatherer : Gatherer)
  : exporter_struct + error :=
  match Load configFile with
  | inr err => inr err
  | inl c =>
      match new_jobs (Jobs c) [] [] with
      | inr err => inr err
      | inl (jobs, targets) =>
          inl {| exp_core := {| config := c; targets := targets |};
                 exp_jobs := jobs;
                 exp_defaultGatherer := defaultGatherer |}
      end
  end.

(** [exporter.Config] *)
Definition exporter_Config (e : exporter_struct) : Config := config (exp_core e).
End NewExporter.

End ExporterNew.

(** ** What [Gather] returns, told from the channel *)

Module GatherRef.
Import Exporter.

(** The sample [s] as a valid sample of the name [n]: its descriptor and
    its written form. *)
Definition valid_named (n : string) (s : Metric) : option (MetricDesc * dtoMetric) :=
  match Write s empty_dtoMetric, Desc s with
  | (dm, None), Some d => if decide (Name d = n) then Some (d, dm) else None
  | _, _ => None
  end.

(** The valid samples of the name [n] in the channel, in the order of the
    channel. *)
Definition written_named (n : string) (l : list Metric)
  : list (MetricDesc * dtoMetric) :=
  omap (valid_named n) l.

(** Neither gauge nor counter. *)
Definition neither (dm : dtoMetric) : bool :=
  match Gauge dm, Counter dm with
  | None, None => true
  | _, _ => false
  end.

(** Without the leading samples that are neither gauge nor counter. *)
Fixpoint drop_refused (l : list (MetricDesc * dtoMetric))
  : list (MetricDesc * dtoMetric) :=
  match l with
  | [] => []
  | (d, dm) :: r => if neither dm then drop_refused r else l
  end.

(** The family of the name [n] for the channel content [l]. *)
Definition family_of (n : string) (l : list Metric) : option MetricFamily :=
  match drop_refused (written_named n l) with
  | [] => None
  | (d, dm) :: rest =>
      Some {| mf_Name := Some n; mf_Help := Some (Help d);
              mf_Type := Some (if Gauge dm is Some _ then GAUGE else COUNTER);
              mf_Metric := dm :: rest.*2 |}
  end.

(** The error that the sample [s] adds when it arrives after the samples
    [before]. *)
Definition sample_error (before : list Metric) (s : Metric) : option error :=
  match Write s empty_dtoMetric, Desc s with
  | (_, Some e), _ => Some e
  | (dm, None), Some d =>
      if neither dm then
        match family_of (Name d) before with
        | Some _ => None
        | None => Some (errDontKnowHowToHandle dm)
        end
      else None
  | (_, None), None => None
  end.

(** The errors of the samples [l] that arrive after [before], in the order
    of arrival. *)
Fixpoint errors_of (before l : list Metric) : list error :=
  match l with
  | [] => []
  | s :: r => option_list (sample_error before s) ++ errors_of (before ++ [s]) r
  end.

(** A sample that makes [Gather] panic: it is written without error and
    has no descriptor. *)
Definition nil_descriptor (s : Metric) : Prop :=
  ∃ dm, Write s empty_dtoMetric = (dm, None) ∧ Desc s = None.

End GatherRef.

(** ** Scrapes that overlap *)

(** The HTTP server calls [Gather] for every request, in a goroutine of
    its own, and every call of [Gather] starts one [Collect] for every
    target: scrapes of the same [*target] can run at the same time.  The
    only field of a target that is ever assigned is [conn], and only
    [ping] assigns it, with no lock; the rest of [Collect] reads the
    target.  So the model of overlapping scrapes is a pool of goroutines
    running [ping], each one step at a time, on targets they share. *)

Module Overlap.
Import Target TargetSpec Exporter.

(** Where a goroutine stands in [target.ping]. *)
Inductive pc :=
  | AtTest                 (* before the test [t.conn == nil] *)
  | AtOpen                 (* [t.conn] was nil: before [OpenConnection] *)
  | AtStore (conn : DB)    (* [OpenConnection] gave [conn]: before [t.conn = conn] *)
  | AtCheck                (* before the test [t.conn != nil && ctx.Err() == nil] *)
  | AtPing                 (* the test held: before [PingDB(ctx, t.conn)] *)
  | AtExit                 (* before [if ctx.Err() != nil] *)
  | Done (err : option error)  (* [ping] returned [err] *)
  | Crashed.               (* [PingDB] was called with a nil handle *)

(** One step of [ping]: one access to [t.conn], or one call.  A call takes
    the time the driver says and is one step: it does not touch the
    target, so what other goroutines do while it lasts can as well happen
    before or after it. *)
Definition ping_step (env : Env) (ctx : Context) (p : pc) (t : target) (w : World)
  : pc * target * World :=
  match p with
  | AtTest => (match conn t with None => AtOpen | Some _ => AtCheck end, t, w)
  | AtOpen =>
      let '(r, w) := OpenConnection env ctx (logContext t) (dsn t) w in
      match r with
      | inr err =>
          (if decide (Some err ≠ ctx_Err ctx (now w)) then Done (Some err) else AtCheck,
           t, w)
      | inl conn => (AtStore conn, t, w)
      end
  | AtStore conn => (AtCheck, set_conn t conn, w)
  | AtCheck =>
      (match conn t, ctx_Err ctx (now w) with
       | Some _, None => AtPing
       | _, _ => AtExit
       end, t, w)
  | AtPing =>
      match conn t with
      | Some c =>
          let '(r, w) := PingDB env ctx c w in
          match r with
          | Some err =>
              (if decide (Some err ≠ ctx_Err ctx (now w)) then Done (Some err) else AtExit,
               t, w)
          | None => (AtExit, t, w)
          end
      | None => (Crashed, t, w)
      end
  | AtExit => (Done (ctx_Err ctx (now w)), t, w)
  | Done _ | Crashed => (p, t, w)
  end.

(** A scrape: the target it scrapes (its index in the pool), the context
    of the [Gather] that started it, and where it stands. *)
Record thread := {
  th_target : nat;
  th_ctx : Context;
  th_pc : pc;
}.

(** The targets, the world, and the scrapes under way. *)
Record pool := {
  p_targets : list target;
  p_world : World;
  p_threads : list thread;
}.

(** What happens next: the scrape [i] takes a step, or time passes. *)
Inductive event :=
  | Run (i : nat)
  | Tick (d : N).

Definition pool_step (env : Env) (ev : event) (s : pool) : pool :=
  match ev with
  | Tick d =>
      {| p_targets := p_targets s; p_world := idle (p_world s) d;
         p_threads := p_threads s |}
  | Run i =>
      match p_threads s !! i with
      | None => s
      | Some th =>
          match p_targets s !! th_target th with
          | None => s
          | Some t =>
              let '(p, t', w') :=
                ping_step env (th_ctx th) (th_pc th) t (spawn (p_world s) i) in
              {| p_targets := <[th_target th := t']> (p_targets s);
                 p_world := w';
                 p_threads :=
                   <[i := {| th_target := th_target th; th_ctx := th_ctx th;
                             th_pc := p |}]> (p_threads s) |}
          end
      end
  end.

(** A run of the pool under a schedule: every interleaving of the steps
    of the scrapes, with any time between them, is the run of some
    schedule. *)
Fixpoint run (env : Env) (sched : list event) (s : pool) : pool :=
  match sched with
  | [] => s
  | ev :: sched' => run env sched' (pool_step env ev s)
  end.

(** The calls made between two worlds. *)
Definition calls_since (w w' : World) : list Call :=
  drop (length (history w)) (history w').

(** The calls of a run, each with the target of the scrape that made
    it. *)
Definition step_trace (env : Env) (ev : event) (s : pool) : list (nat * Call) :=
  match ev with
  | Run i =>
      match p_threads s !! i with
      | Some th =>
          (λ c, (th_target th, c)) <$>
            calls_since (p_world s) (p_world (pool_step env ev s))
      | None => []
      end
  | Tick _ => []
  end.

Fixpoint trace (env : Env) (sched : list event) (s : pool) : list (nat * Call) :=
  match sched with
  | [] => []
  | ev :: sched' => step_trace env ev s ++ trace env sched' (pool_step env ev s)
  end.

(** The calls made by the scrapes of the target [j]. *)
Definition calls_of (j : nat) (tr : list (nat * Call)) : list Call :=
  omap (λ x, if decide (x.1 = j) then Some x.2 else None) tr.


Definition successful_opens (j : nat) (tr : list (nat * Call)) : nat :=
  length (filter (λ c, successful_open c = true) (calls_of j tr)).

(** The connection field of the target [j]. *)
Definition conn_of (s : pool) (j : nat) : option DB :=
  p_targets s !! j ≫= conn.

Definition on_target (j : nat) (th : thread) : bool := bool_decide (th_target th = j).


(** Between the test [t.conn == nil] that found nil and the end of the
    [if] it guards. *)
Definition in_open (p : pc) : bool :=
  match p with
  | AtOpen | AtStore _ => true
  | _ => false
  end.



(** No scrape has started. *)
Definition at_rest (s : pool) : Prop :=
  Forall (λ th, th_pc th = AtTest) (p_threads s).

(** The target [j] holds the handle [c], and none of its scrapes is
    between the test that found nil and the store. *)
Definition settled (s : pool) (j : nat) (c : DB) : Prop :=
  conn_of s j = Some c ∧
  Forall (λ th, on_target j th && in_open (th_pc th) = false) (p_threads s).

(** What steps do to a target: nothing, or they set its connection
    field. *)
Definition kept (t t' : target) : Prop := t' = t ∨ ∃ c, t' = set_conn t c.

(** The same, seen from a target at rest: nothing, or the target got the
    handle it did not have. *)
Definition opened_only (t t' : target) : Prop :=
  t' = t ∨ (conn t = None ∧ ∃ c, t' = set_conn t c).

(** What one step from [p] does: the calls it makes, the target and the
    place it leaves. *)
Definition step_shape (p : pc) (t : target) (p' : pc) (t' : target)
    (calls : list Call) : Prop :=
  match p with
  | AtTest =>
      t' = t ∧ calls = [] ∧ p' = (if conn t is Some _ then AtCheck else AtOpen)
  | AtOpen =>
      t' = t ∧
      ∃ r, calls = [CallOpenConnection (logContext t) (dsn t) r] ∧
           match r with
           | inl c => p' = AtStore c
           | inr e => p' = Done (Some e) ∨ p' = AtCheck
           end
  | AtStore c => t' = set_conn t c ∧ calls = [] ∧ p' = AtCheck
  | AtCheck =>
      t' = t ∧ calls = [] ∧ ((p' = AtPing ∧ is_Some (conn t)) ∨ p' = AtExit)
  | AtPing =>
      t' = t ∧
      match conn t with
      | Some c =>
          ∃ r, calls = [CallPingDB c r] ∧ (p' = AtExit ∨ ∃ e, p' = Done (Some e))
      | None => calls = [] ∧ p' = Crashed
      end
  | AtExit => t' = t ∧ calls = [] ∧ ∃ e, p' = Done e
  | Done _ | Crashed => t' = t ∧ calls = [] ∧ p' = p
  end.

(** Past the call of [OpenConnection], made or skipped. *)
Definition past (p : pc) : nat :=
  match p with
  | AtTest | AtOpen => 0
  | _ => 1
  end.

Definition started (s : pool) (j : nat) : nat :=
  sum_list_with (λ th, if on_target j th then past (th_pc th) else 0%nat)
    (p_threads s).



(** No scrape crashed, and a scrape about to ping has a handle to ping. *)
Definition sound (s : pool) : Prop :=
  Forall (λ th, th_pc th ≠ Crashed ∧
                (th_pc th = AtPing → is_Some (conn_of s (th_target th))))
    (p_threads s).


(** One scrape of one target, alone. *)
Definition solo (t : target) (w : World) (ctx : Context) : pool :=
  {| p_targets := [t]; p_world := w;
     p_threads := [ {| th_target := 0; th_ctx := ctx; th_pc := AtTest |} ] |}.

(** The scrapes that a call of [Gather] at instant [z] starts: one for
    every target, under the context of that call. *)
Definition gather_threads (e : exporter) (z : Z) : list thread :=
  imap (λ i _, {| th_target := i; th_ctx := Gather_ctx e z; th_pc := AtTest |})
    (targets e).

(** The exporter with the scrapes of the calls of [Gather] made at the
    instants [starts], none of them started yet. *)
Definition gathers_pool (e : exporter) (w : World) (starts : list Z) : pool :=
  {| p_targets := targets e; p_world := w;
     p_threads := concat (gather_threads e <$> starts) |}.

End Overlap.

(** ** The claim about the connection field as the specification words it *)

Module OverlapClaims.
Import Target Overlap.


End OverlapClaims.

(** ** Drivers that differ in the schedule only *)

Module Schedules.
Import Exporter GatherRef.





End Schedules.

(** ** More sample inputs *)

Module MoreSamples.
Import Target Exporter ExporterNew Samples.

(** A [NewCollector] that knows the collectors named m and k only. *)
Definition NewCollector_mk (logContext cc : string) (constLabels : list LabelPair)
  : Collector + error :=
  if decide (cc = "m") then inl collector_m
  else if decide (cc = "k") then inl collector_k
  else inr (errorString ("unknown collector " +:+ cc)).

(** [%q] on a string that needs no escaping: the string between double
    quotes. *)
Definition dquote : string := String (Ascii.ascii_of_N 34) EmptyString.
Definition quote_plain (s : string) : string := dquote +:+ s +:+ dquote.

Definition labels_env_dc : gmap string string :=
  <["env" := "prod"]> (<["dc" := "eu"]> ∅).

Definition pairs_dc_env : list LabelPair :=
  [ {| lp_Name := "dc"; lp_Value := "eu" |};
    {| lp_Name := "env"; lp_Value := "prod" |} ].

(** The target [NewTarget] builds for the collectors m and k and these
    labels. *)
Definition target_mk : target :=
  {| name := "db1"; dsn := "sqlserver://db1";
     collectors := [collector_m; collector_k]; constLabels := labels_env_dc;
     upDesc :=
       NewAutomaticMetricDesc ("job=mssql, target=" +:+ quote_plain "db1")
         upMetricName upMetricHelp GaugeValue pairs_dc_env;
     scrapeDurationDesc :=
       NewAutomaticMetricDesc ("job=mssql, target=" +:+ quote_plain "db1")
         scrapeDurationName scrapeDurationHelp GaugeValue pairs_dc_env;
     logContext := "job=mssql, target=" +:+ quote_plain "db1"; conn := None |}.

(** A loader that knows two files, the second with a job that [NewJob]
    rejects; a job configuration is the list of its target names, a job the
    list of its targets. *)
Definition globals_bad : GlobalConfig :=
  {| MinInterval := 0; ScrapeTimeout := 10000000000;
     ScrapeTimeoutOffset := 500000000; MaxConnections := 0 |}.

Definition Load_sample (configFile : string) : Config + error :=
  if decide (configFile = "sql_exporter.yml") then inl {| Globals := globals |}
  else if decide (configFile = "bad_jobs.yml") then inl {| Globals := globals_bad |}
  else inr (errorString "no such file").

Definition Jobs_sample (c : Config) : list (list string) :=
  if decide (MaxConnections (Globals c) = 0)
  then [["db1"]; []; ["db2"]]
  else [["db1"]; ["db2"; "db3"]].

Definition NewJob_sample (jc : list string) : list target + error :=
  match jc with
  | [] => inr (errorString "job without targets")
  | _ => inl ((λ _, db1) <$> jc)
  end.

Definition exporter_sample : @exporter_struct (list target) unit :=
  {| exp_core := exporter_of [db1; db1; db1];
     exp_jobs := [[db1]; [db1; db1]];
     exp_defaultGatherer := () |}.

(** An exporter whose scrape timeout is zero; its second target holds a
    handle. *)
Definition exporter_no_budget : exporter :=
  {| config :=
       {| Globals :=
            {| MinInterval := 0; ScrapeTimeout := 0;
               ScrapeTimeoutOffset := 500000000; MaxConnections := 3 |} |};
     targets := [db1; set_conn db1 (Handle 7)] |}.

(** A driver that gives a new handle at every open: the number of the
    calls made before. *)
Definition env_fresh : Env :=
  {| env_OpenConnection := λ w _ _ _, (5%N, inl (Handle (length (history w))));
     env_PingDB := λ _ _ _, (3%N, None);
     env_schedule := λ _, [] |}.

(** Two scrapes of [db1]; a run in which both find no handle before
    either stores one, and a run in which the second starts after the
    first returned. *)
Definition two_scrapes : Overlap.pool :=
  {| Overlap.p_targets := [db1]; Overlap.p_world := w0;
     Overlap.p_threads :=
       [ {| Overlap.th_target := 0; Overlap.th_ctx := ctx_live;
            Overlap.th_pc := Overlap.AtTest |};
         {| Overlap.th_target := 0; Overlap.th_ctx := ctx_live;
            Overlap.th_pc := Overlap.AtTest |} ] |}.

Definition overlapping : list Overlap.event :=
  [Overlap.Run 0; Overlap.Run 1; Overlap.Run 0; Overlap.Run 0; Overlap.Run 1;
   Overlap.Run 1].



End MoreSamples.

(** ** Facts about [float64] *)

Section float_facts.
  Import Float64 Target.

Ltac pow_lia :=
  repeat match goal with
         | |- context [Z.pow ?a ?b] =>
             let v := fresh "pw" in set (v := Z.pow a b) in *; clearbody v
         | H : context [Z.pow ?a ?b] |- _ =>
             let v := fresh "pw" in set (v := Z.pow a b) in *; clearbody v
         end;
  lia.

Lemma digits2_pos_bounds (p : positive) :
  2 ^ (Z.pos (digits2_pos p) - 1) ≤ Z.pos p ∧ Z.pos p < 2 ^ Z.pos (digits2_pos p).
Proof.
  induction p as [p IH|p IH|]; simpl digits2_pos; [| |simpl; lia].
  - rewrite Pos2Z.inj_succ. change (Z.pos p~1) with (2 * Z.pos p + 1).
    replace (Z.succ (Z.pos (digits2_pos p)) - 1) with (Z.succ (Z.pos (digits2_pos p) - 1)) by lia.
    rewrite !Z.pow_succ_r by lia. pow_lia.
  - rewrite Pos2Z.inj_succ. change (Z.pos p~0) with (2 * Z.pos p).
    replace (Z.succ (Z.pos (digits2_pos p)) - 1) with (Z.succ (Z.pos (digits2_pos p) - 1)) by lia.
    rewrite !Z.pow_succ_r by lia. pow_lia.
Qed.

Lemma digits2_pos_unique (p : positive) (k : Z) :
  2 ^ (k - 1) ≤ Z.pos p → Z.pos p < 2 ^ k → Z.pos (digits2_pos p) = k.
Proof.
  intros Hlo Hhi. pose proof (digits2_pos_bounds p) as [Hlo' Hhi'].
  assert (0 < k).
  { destruct (Z_lt_le_dec 0 k) as [|Hk]; [done|].
    assert (2 ^ k ≤ 1); [|pow_lia].
    destruct (Z.eq_dec k 0) as [->|]; [done|]. rewrite Z.pow_neg_r by lia. lia. }
  destruct (Z_lt_le_dec (Z.pos (digits2_pos p)) k) as [Hlt|Hge].
  { assert (2 ^ Z.pos (digits2_pos p) ≤ 2 ^ (k - 1)) by (apply Z.pow_le_mono_r; lia).
    pow_lia. }
  destruct (Z_lt_le_dec k (Z.pos (digits2_pos p))) as [Hlt|Hge'].
  { assert (2 ^ k ≤ 2 ^ (Z.pos (digits2_pos p) - 1)) by (apply Z.pow_le_mono_r; lia).
    pow_lia. }
  lia.
Qed.

Lemma shr_1_spec (m : Z) (r s : bool) :
  0 ≤ m →
  shr_1 {| shr_m := m; shr_r := r; shr_s := s |} =
  {| shr_m := Z.div2 m; shr_r := Z.odd m; shr_s := r || s |}.
Proof. intros Hm. destruct m as [|[p|p|]|p]; try done. Qed.

Lemma iter_pos_invariant {A} (f : A → A) (I : nat → A → Prop) :
  (∀ k x, I k x → I (S k) (f x)) →
  ∀ p k x, I k x → I (k + Pos.to_nat p)%nat (SpecFloat.iter_pos f p x).
Proof.
  intros Hf. induction p as [p IH|p IH|]; intros k x Hx; simpl.
  - rewrite Pos2Nat.inj_xI.
    replace (k + S (2 * Pos.to_nat p))%nat with (S k + Pos.to_nat p + Pos.to_nat p)%nat by lia.
    by apply IH, IH, Hf.
  - rewrite Pos2Nat.inj_xO.
    replace (k + 2 * Pos.to_nat p)%nat with (k + Pos.to_nat p + Pos.to_nat p)%nat by lia.
    by apply IH, IH.
  - replace (k + Pos.to_nat 1)%nat with (S k) by lia. by apply Hf.
Qed.

Lemma shifted_0 m : 0 ≤ m → shifted m 0 {| shr_m := m; shr_r := false; shr_s := false |}.
Proof. intros Hm. split; [done|]. exists 0. simpl. repeat split; try lia; done. Qed.

Lemma shifted_S m k mrs : shifted m k mrs → shifted m (S k) (shr_1 mrs).
Proof.
  destruct mrs as [q r s]. intros [Hq (low & Hlow & Hhigh & Heq & Hs)].
  rewrite shr_1_spec by done. unfold shifted. simpl in *.
  pose proof (Z.div2_odd q) as Hdiv. 
  assert (0 ≤ Z.div2 q) by (apply Z.div2_nonneg; lia).
  split; [done|].
  exists ((if r then 2 ^ Z.of_nat k else 0) + low).
  assert (0 < 2 ^ Z.of_nat k) by (apply Z.pow_pos_nonneg; lia).
  rewrite Nat2Z.inj_succ.
  replace (Z.succ (Z.of_nat k) + 1) with (Z.succ (Z.succ (Z.of_nat k))) by lia.
  replace (Z.of_nat k + 1) with (Z.succ (Z.of_nat k)) in Heq by lia.
  rewrite !Z.pow_succ_r by lia. rewrite Z.pow_succ_r in Heq by lia.
  split; [destruct r; pow_lia|]. split; [destruct r; pow_lia|]. split.
  - rewrite Heq. rewrite Hdiv at 1. destruct (Z.odd q); simpl; pow_lia.
  - destruct r; simpl; [split; [pow_lia|done]|]. rewrite Hs. split; intros ?; lia.
Qed.

Lemma shifted_iter m p :
  0 ≤ m →
  shifted m (Pos.to_nat p)
    (SpecFloat.iter_pos shr_1 p {| shr_m := m; shr_r := false; shr_s := false |}).
Proof.
  intros Hm.
  apply (iter_pos_invariant shr_1 (shifted m) (shifted_S m) p 0%nat).
  by apply shifted_0.
Qed.

Lemma shr_fexp_spec (m : positive) (e : Z) :
  -1074 ≤ Z.pos (digits2_pos m) + e - 53 →
  shr_fexp prec emax (Z.pos m) e loc_Exact =
  shr {| shr_m := Z.pos m; shr_r := false; shr_s := false |} e
    (Z.pos (digits2_pos m) - 53).
Proof.
  intros Hmin. unfold shr_fexp, fexp, emin, prec, emax. simpl Zdigits2.
  rewrite Z.max_l by lia.
  replace (Z.pos (digits2_pos m) + e - 53 - e) with (Z.pos (digits2_pos m) - 53) by lia.
  done.
Qed.

Lemma round_aux_spec (s : bool) (m : positive) (e : Z) :
  53 ≤ Z.pos (digits2_pos m) →
  -1074 ≤ Z.pos (digits2_pos m) + e - 53 →
  Z.pos (digits2_pos m) + e ≤ 1023 →
  ∃ m' e',
    binary_round_aux prec emax s (Z.pos m) e loc_Exact = S754_finite s m' e' ∧
    e ≤ e' ∧ e' ≤ e + Z.pos (digits2_pos m) - 52 ∧
    2 ^ 52 ≤ Z.pos m' ∧ Z.pos m' < 2 ^ 53 ∧
    Z.abs (Z.pos m - Z.pos m' * 2 ^ (e' - e)) * 2 ^ 53 ≤ Z.pos m.
Proof.
  intros Hd Hmin Hmax. pose proof (digits2_pos_bounds m) as [Hlo Hhi].
  unfold binary_round_aux. rewrite shr_fexp_spec by done.
  destruct (Z.pos (digits2_pos m) - 53) as [|p|p] eqn:Hn; [|clear Hd|lia];
    unfold shr at 1.
  - (* exactly 53 digits: nothing is shifted out *)
    assert (Z.pos (digits2_pos m) = 53) as Hd53 by lia. rewrite Hd53 in *.
    simpl round_nearest_even. rewrite shr_fexp_spec by lia. rewrite Hd53.
    simpl shr. cbn [shr_m].
    rewrite (proj2 (Z.leb_le _ _)) by (unfold emax, prec; lia). exists m, e.
    split; [done|]. split; [lia|]. split; [lia|]. split; [exact Hlo|].
    split; [exact Hhi|].
    rewrite Z.sub_diag, Z.mul_1_r, Z.sub_diag. simpl. lia.
  - (* [p] digits are shifted out *)
    pose proof (shifted_iter (Z.pos m) p ltac:(lia)) as Hsh.
    destruct (SpecFloat.iter_pos shr_1 p _) as [q r st].
    destruct Hsh as [Hq (low & Hlow0 & Hlow & Heq & Hst)]. simpl in Hq, Heq, Hst.
    rewrite positive_nat_Z in Hlow, Heq.
    assert (Z.pos (digits2_pos m) = Z.pos p + 53) as Hd53 by lia. rewrite Hd53 in *.
    replace (Z.pos p + 53 - 1) with (Z.pos p + 52) in Hlo by lia.
    rewrite Z.pow_add_r in Hlo, Hhi, Heq by lia.
    change (2 ^ 1) with 2 in Heq.
    assert (0 < 2 ^ Z.pos p) as HN by (apply Z.pow_pos_nonneg; lia).
    remember (2 ^ Z.pos p) as N eqn:HeqN. cbn [shr_m].
    set (m1 := round_nearest_even q
                 (loc_of_shr_record {| shr_m := q; shr_r := r; shr_s := st |})).
    assert ((m1 = q ∨ m1 = q + 1) ∧ - N ≤ 2 * Z.pos m - m1 * (N * 2) ∧
            2 * Z.pos m - m1 * (N * 2) ≤ N) as (Hm1 & Herr1 & Herr2).
    { subst m1. destruct r, st; simpl.
      - assert (low ≠ 0) by (by apply Hst). split; [auto|]. lia.
      - assert (low = 0) as -> by (destruct (decide (low = 0)); [done|];
          by apply Hst in n). destruct (Z.even q); split; auto; lia.
      - assert (low ≠ 0) by (by apply Hst). split; [auto|]. lia.
      - assert (low = 0) as -> by (destruct (decide (low = 0)); [done|];
          by apply Hst in n). split; [auto|]. lia. }
    assert (2 ^ 52 ≤ q ∧ q < 2 ^ 53) as [Hq1 Hq2].
    { change (2 ^ 52) with 4503599627370496 in *.
      change (2 ^ 53) with 9007199254740992 in *. destruct r; nia. }
    clearbody m1.
    assert (2 ^ 52 ≤ m1 ∧ m1 ≤ 2 ^ 53) as [Hm1lo Hm1hi]
      by (change (2 ^ 52) with 4503599627370496 in *;
          change (2 ^ 53) with 9007199254740992 in *; lia).
    destruct m1 as [|m1p|m1p]; [change (2 ^ 52) with 4503599627370496 in *; lia| |lia].
    destruct (decide (Z.pos m1p < 2 ^ 53)) as [Hlt|Hge].
    + (* no carry *)
      assert (Z.pos (digits2_pos m1p) = 53) as Hd1
        by (apply digits2_pos_unique; [exact Hm1lo|exact Hlt]).
      rewrite shr_fexp_spec by lia. rewrite Hd1. simpl shr. cbn [shr_m].
      rewrite (proj2 (Z.leb_le _ _)) by (unfold emax, prec; lia).
      exists m1p, (e + Z.pos p). split; [done|]. split; [lia|]. split; [lia|].
      split; [done|]. split; [done|].
      replace (e + Z.pos p - e) with (Z.pos p) by lia. rewrite <- HeqN.
      change (2 ^ 52) with 4503599627370496 in *.
      change (2 ^ 53) with 9007199254740992 in *. nia.
    + (* the rounding carried into a 54th digit *)
      assert (Z.pos m1p = 2 ^ 53) as Hm1eq by lia.
      assert (m1p = 9007199254740992%positive) as -> by (by injection Hm1eq).
      rewrite shr_fexp_spec by (simpl; lia). simpl shr. cbn [shr_m].
      rewrite (proj2 (Z.leb_le _ _)) by (unfold emax, prec; lia).
      exists 4503599627370496%positive, (e + Z.pos p + 1). split; [done|].
      split; [lia|]. split; [lia|]. split; [done|]. split; [done|].
      replace (e + Z.pos p + 1 - e) with (Z.pos p + 1) by lia.
      rewrite Z.pow_add_r by lia. rewrite <- HeqN.
      change (2 ^ 52) with 4503599627370496 in *.
      change (2 ^ 53) with 9007199254740992 in *. change (2 ^ 1) with 2. nia.
Qed.

Lemma digits2_pos_range (p : positive) (a b : Z) :
  0 ≤ a → 2 ^ a ≤ Z.pos p → Z.pos p < 2 ^ b → a < Z.pos (digits2_pos p) ∧ Z.pos (digits2_pos p) ≤ b.
Proof.
  intros Ha Hlo Hhi. pose proof (digits2_pos_bounds p) as [Hlo' Hhi']. split.
  - destruct (Z_lt_le_dec a (Z.pos (digits2_pos p))) as [|Hle]; [done|].
    assert (2 ^ Z.pos (digits2_pos p) ≤ 2 ^ a) by (apply Z.pow_le_mono_r; lia).
    pow_lia.
  - destruct (Z_lt_le_dec b (Z.pos (digits2_pos p))) as [Hlt|]; [|done].
    assert (0 ≤ b).
    { destruct (Z_lt_le_dec b 0) as [Hb|]; [|done].
      rewrite (Z.pow_neg_r 2 b) in Hhi by done. lia. }
    assert (2 ^ b ≤ 2 ^ (Z.pos (digits2_pos p) - 1)) by (apply Z.pow_le_mono_r; lia).
    pow_lia.
Qed.

Lemma iter_xO (p k : positive) : Z.pos (Pos.iter xO p k) = Z.pos p * 2 ^ Z.pos k.
Proof.
  induction k as [|k IH] using Pos.peano_ind; [simpl; lia|].
  rewrite Pos.iter_succ, Pos2Z.inj_succ, Z.pow_succ_r by lia.
  change (Z.pos (Pos.iter xO p k)~0) with (2 * Z.pos (Pos.iter xO p k)).
  rewrite IH. lia.
Qed.

(** [float64(d)] for a positive [d] below [2^63]: a normal number, off
    by at most half a unit in the last place. *)
Lemma of_int_spec (d : Z) :
  0 < d → d < 2 ^ 63 →
  ∃ m1 e1,
    of_int d = S754_finite false m1 e1 ∧
    -52 ≤ e1 ∧ e1 ≤ 11 ∧ 2 ^ 52 ≤ Z.pos m1 ∧ Z.pos m1 < 2 ^ 53 ∧
    Z.abs (d * 2 ^ 52 - Z.pos m1 * 2 ^ (e1 + 52)) * 2 ^ 53 ≤ d * 2 ^ 52.
Proof.
  intros Hpos Hmax. destruct d as [|p|p]; [lia| |lia].
  pose proof (digits2_pos_bounds p) as [Hlo Hhi].
  destruct (digits2_pos_range p 0 63) as [Hd0 Hd63]; [lia|simpl; lia|done|].
  unfold of_int, binary_normalize, binary_round.
  change (fexp prec emax (Z.pos (digits2_pos p) + 0))
    with (Z.max (Z.pos (digits2_pos p) + 0 - 53) (-1074)).
  rewrite Z.add_0_r, Z.max_l by lia. unfold shl_align.
  rewrite Z.sub_0_r.
  destruct (Z.pos (digits2_pos p) - 53) as [|k|k] eqn:Hk.
  - destruct (round_aux_spec false p 0) as (m1 & e1 & -> & He1 & He1' & Hm1 & Hm1' & Herr);
      [lia..|].
    exists m1, e1. split; [done|]. split; [lia|]. split; [lia|]. split; [done|].
    split; [done|]. rewrite Z.sub_0_r in Herr. rewrite Z.pow_add_r by lia.
    change (2 ^ 52) with 4503599627370496 in *. 
    change (2 ^ 53) with 9007199254740992 in *.
    assert (0 < 2 ^ e1) by (apply Z.pow_pos_nonneg; lia).
    remember (2 ^ e1) as N. nia.
  - destruct (round_aux_spec false p 0) as (m1 & e1 & -> & He1 & He1' & Hm1 & Hm1' & Herr);
      [lia..|].
    exists m1, e1. split; [done|]. split; [lia|]. split; [lia|]. split; [done|].
    split; [done|]. rewrite Z.sub_0_r in Herr. rewrite Z.pow_add_r by lia.
    change (2 ^ 52) with 4503599627370496 in *. 
    change (2 ^ 53) with 9007199254740992 in *.
    assert (0 < 2 ^ e1) by (apply Z.pow_pos_nonneg; lia).
    remember (2 ^ e1) as N. nia.
  - pose proof (iter_xO p k) as Hmz.
    assert (Z.pos (digits2_pos (Pos.iter xO p k)) = 53) as Hdz.
    { apply digits2_pos_unique; rewrite Hmz.
      - replace (53 - 1) with ((Z.pos (digits2_pos p) - 1) + Z.pos k) by lia.
        rewrite Z.pow_add_r by lia.
        apply Z.mul_le_mono_nonneg_r; [apply Z.pow_nonneg; lia|done].
      - replace 53 with (Z.pos (digits2_pos p) + Z.pos k) by lia.
        rewrite Z.pow_add_r by lia.
        apply Z.mul_lt_mono_pos_r; [apply Z.pow_pos_nonneg; lia|done]. }
    destruct (round_aux_spec false (Pos.iter xO p k) (Z.neg k))
      as (m1 & e1 & -> & He1 & He1' & Hm1 & Hm1' & Herr); [lia..|].
    exists m1, e1. split; [done|]. split; [lia|]. split; [lia|]. split; [done|].
    split; [done|]. rewrite Hmz in Herr.
    assert (2 ^ 52 = 2 ^ Z.pos k * 2 ^ (52 - Z.pos k)) as ->
      by (rewrite <- Z.pow_add_r by lia; f_equal; lia).
    assert (2 ^ (e1 + 52) = 2 ^ (e1 - Z.neg k) * 2 ^ (52 - Z.pos k)) as ->
      by (rewrite <- Z.pow_add_r by lia; f_equal; lia).
    assert (0 < 2 ^ (52 - Z.pos k)) by (apply Z.pow_pos_nonneg; lia).
    remember (2 ^ (52 - Z.pos k)) as S1. remember (2 ^ Z.pos k) as N.
    remember (2 ^ (e1 - Z.neg k)) as M.
    change (2 ^ 53) with 9007199254740992 in *.
    replace (Z.pos p * (N * S1) - Z.pos m1 * (M * S1))
      with ((Z.pos p * N - Z.pos m1 * M) * S1) by ring.
    rewrite Z.abs_mul, (Z.abs_eq S1) by lia.
    apply (Z.mul_le_mono_nonneg_r _ _ S1) in Herr; [|lia].
    remember (Z.abs (Z.pos p * N - Z.pos m1 * M)) as A. lia.
Qed.

(** Three roundings, each off by at most one part in [E], leave the
    product off by at most one part in [F], when [(1 + 1/E)^3 <= 1 + 1/F]
    and [(1 - 1/E)^3 >= 1 - 1/F]. *)
Lemma three_roundings (D X P V K T E F c n9 : Z) :
  0 ≤ D → 0 ≤ X → 0 ≤ c → 0 ≤ n9 → 0 < T → 1 ≤ E → 0 ≤ F →
  Z.abs (D - X) * E ≤ D →
  P = X * c → K = c * n9 →
  Z.abs (P - V) * E ≤ P →
  Z.abs (K - T) * E ≤ T →
  (E + 1) * (E + 1) * (E + 1) * F ≤ E * E * E * (F + 1) →
  E * E * E * (F - 1) ≤ (E - 1) * (E - 1) * (E - 1) * F →
  Z.abs (V * n9 - D * T) * F ≤ D * T.
Proof.
  intros HD HX Hc Hn9 HT HE HF H1 -> -> H2 H3 Hup Hlo.
  assert (X * E ≤ D * (E + 1) ∧ D * (E - 1) ≤ X * E) as [H1u H1l] by lia.
  assert (V * E ≤ X * c * (E + 1) ∧ X * c * (E - 1) ≤ V * E) as [H2u H2l] by lia.
  assert (c * n9 * E ≤ T * (E + 1) ∧ T * (E - 1) ≤ c * n9 * E) as [H3u H3l] by lia.
  assert (0 ≤ V) as HV by nia.
  (* the upper chain *)
  assert (V * n9 * (E * E * E) ≤ D * T * ((E + 1) * (E + 1) * (E + 1))) as Hu.
  { apply Z.le_trans with (X * c * (E + 1) * (n9 * (E * E))).
    - replace (V * n9 * (E * E * E)) with (V * E * (n9 * (E * E))) by ring.
      apply Z.mul_le_mono_nonneg_r; [repeat apply Z.mul_nonneg_nonneg; lia|done].
    - apply Z.le_trans with (D * (E + 1) * (c * n9 * ((E + 1) * E))).
      + replace (X * c * (E + 1) * (n9 * (E * E)))
          with (X * E * (c * n9 * ((E + 1) * E))) by ring.
        apply Z.mul_le_mono_nonneg_r; [repeat apply Z.mul_nonneg_nonneg; lia|done].
      + replace (D * (E + 1) * (c * n9 * ((E + 1) * E)))
          with (c * n9 * E * (D * ((E + 1) * (E + 1)))) by ring.
        replace (D * T * ((E + 1) * (E + 1) * (E + 1)))
          with (T * (E + 1) * (D * ((E + 1) * (E + 1)))) by ring.
        apply Z.mul_le_mono_nonneg_r; [repeat apply Z.mul_nonneg_nonneg; lia|done]. }
  (* the lower chain *)
  assert (D * T * ((E - 1) * (E - 1) * (E - 1)) ≤ V * n9 * (E * E * E)) as Hl.
  { apply Z.le_trans with (X * c * (E - 1) * (n9 * (E * E))).
    - apply Z.le_trans with (D * (E - 1) * (c * n9 * ((E - 1) * E))).
      + replace (D * T * ((E - 1) * (E - 1) * (E - 1)))
          with (T * (E - 1) * (D * ((E - 1) * (E - 1)))) by ring.
        replace (D * (E - 1) * (c * n9 * ((E - 1) * E)))
          with (c * n9 * E * (D * ((E - 1) * (E - 1)))) by ring.
        apply Z.mul_le_mono_nonneg_r; [repeat apply Z.mul_nonneg_nonneg; lia|done].
      + replace (X * c * (E - 1) * (n9 * (E * E)))
          with (X * E * (c * n9 * ((E - 1) * E))) by ring.
        apply Z.mul_le_mono_nonneg_r; [repeat apply Z.mul_nonneg_nonneg; lia|done].
    - replace (V * n9 * (E * E * E)) with (V * E * (n9 * (E * E))) by ring.
      apply Z.mul_le_mono_nonneg_r; [repeat apply Z.mul_nonneg_nonneg; lia|done]. }
  assert (0 ≤ D * T) as HDT by (apply Z.mul_nonneg_nonneg; lia).
  assert (0 < E * E * E) as HE3 by (repeat apply Z.mul_pos_pos; lia).
  apply (Z.mul_le_mono_pos_r _ _ (E * E * E)); [done|].
  apply (Z.mul_le_mono_nonneg_l _ _ (D * T)) in Hup; [|done].
  apply (Z.mul_le_mono_nonneg_l _ _ (D * T)) in Hlo; [|done].
  remember (D * T) as DT. remember (V * n9) as Vn. remember (E * E * E) as E3.
  remember ((E + 1) * (E + 1) * (E + 1)) as Ep. remember ((E - 1) * (E - 1) * (E - 1)) as Em.
  clear -Hu Hl Hup Hlo HF HE3 HDT. nia.
Qed.

(** The value of [float64(d) * 1e-9], scaled by [2^134] to an integer, is
    [d * 10^-9] up to one part in [2^51]. *)
Lemma seconds_spec (d : Z) :
  0 < d → d < 2 ^ 63 →
  ∃ m2 e2,
    mul (of_int d) c_1e_9 = S754_finite false m2 e2 ∧ -134 ≤ e2 ∧
    Z.abs (Z.pos m2 * 2 ^ (e2 + 134) * 10 ^ 9 - d * 2 ^ 134) * 2 ^ 51 ≤ d * 2 ^ 134.
Proof.
  intros Hpos Hmax.
  destruct (of_int_spec d Hpos Hmax) as (m1 & e1 & -> & He1 & He1' & Hm1 & Hm1' & Herr1).
  unfold mul, c_1e_9, SFmul. simpl xorb.
  set (mc := 4835703278458517%positive).
  assert (2 ^ 104 ≤ Z.pos (m1 * mc) ∧ Z.pos (m1 * mc) < 2 ^ 106) as [Hplo Hphi].
  { rewrite Pos2Z.inj_mul. subst mc.
    change (2 ^ 52) with 4503599627370496 in *.
    change (2 ^ 53) with 9007199254740992 in *.
    change (2 ^ 104) with (4503599627370496 * 4503599627370496).
    change (2 ^ 106) with (9007199254740992 * 9007199254740992). nia. }
  destruct (digits2_pos_range (m1 * mc) 104 106) as [Hdlo Hdhi]; [lia|done|done|].
  destruct (round_aux_spec false (m1 * mc) (e1 + -82))
    as (m2 & e2 & -> & He2 & He2' & Hm2 & Hm2' & Herr2); [lia..|].
  exists m2, e2. split; [done|]. split; [lia|].
  replace (d * 2 ^ 134) with (d * 2 ^ 52 * 2 ^ 82)
    by (rewrite <- Z.mul_assoc, <- Z.pow_add_r by lia; done).
  apply (three_roundings (d * 2 ^ 52) (Z.pos m1 * 2 ^ (e1 + 52))
           (Z.pos m1 * 2 ^ (e1 + 52) * Z.pos mc) _ (Z.pos mc * 10 ^ 9) (2 ^ 82)
           (2 ^ 53) (2 ^ 51) (Z.pos mc) (10 ^ 9)); try done.
  - apply Z.mul_nonneg_nonneg; [lia|done].
  - apply Z.mul_nonneg_nonneg; [lia|]. apply Z.pow_nonneg; lia.
  - rewrite Pos2Z.inj_mul in Herr2.
    assert (2 ^ (e2 + 134) = 2 ^ (e2 - (e1 + -82)) * 2 ^ (e1 + 52)) as ->
      by (rewrite <- Z.pow_add_r by lia; f_equal; lia).
    assert (0 < 2 ^ (e1 + 52)) by (apply Z.pow_pos_nonneg; lia).
    remember (2 ^ (e1 + 52)) as S1. remember (2 ^ (e2 - (e1 + -82))) as M.
    replace (Z.pos m1 * S1 * Z.pos mc - Z.pos m2 * (M * S1))
      with ((Z.pos m1 * Z.pos mc - Z.pos m2 * M) * S1) by ring.
    rewrite Z.abs_mul, (Z.abs_eq S1) by lia.
    apply (Z.mul_le_mono_nonneg_r _ _ S1) in Herr2; [|lia].
    remember (Z.abs (Z.pos m1 * Z.pos mc - Z.pos m2 * M)) as A.
    change (2 ^ 53) with 9007199254740992 in *. lia.
Qed.

Lemma to_Q_scaled (m : positive) (e : Z) :
  -134 ≤ e →
  (to_Q (S754_finite false m e) ==
   Z.pos m * 2 ^ (e + 134) # 21778071482940061661655974875633165533184)%Q.
Proof.
  intros He. unfold to_Q. rewrite Qred_correct.
  assert (inject_Z (2 ^ (e + 134)) == 2 ^ e * inject_Z (2 ^ 134))%Q as Hpow.
  { rewrite !Zpower_Qpower by lia. apply Qpower_plus. done. }
  rewrite (Qmake_Qdiv (Z.pos m * 2 ^ (e + 134))), inject_Z_mult, Hpow.
  change (Z.pos 21778071482940061661655974875633165533184) with (2 ^ 134).
  field. intros H. assert (inject_Z (2 ^ 134) == 0 → False)%Q as Hne by done. auto.
Qed.

(** [float64(d) * 1e-9] is [d] nanoseconds in seconds: not negative, and
    off by no more than one part in [2^51]. *)
Lemma seconds_accurate (d : Z) :
  0 ≤ d → d < 2 ^ 63 →
  (0 <= seconds d)%Q ∧
  (Qabs (seconds d - (d # 1000000000)) <=
   (d # 1000000000) * (1 # 2251799813685248))%Q.
Proof.
  intros Hpos Hmax. destruct (Z.eq_dec d 0) as [->|Hne]; [by vm_compute|].
  destruct (seconds_spec d) as (m2 & e2 & Hmul & He2 & Herr); [lia|done|].
  unfold seconds. rewrite Hmul. pose proof (to_Q_scaled m2 e2 He2) as Hq.
  assert (0 < 2 ^ (e2 + 134)) by (apply Z.pow_pos_nonneg; lia).
  remember (Z.pos m2 * 2 ^ (e2 + 134)) as v.
  assert (0 ≤ v) by (subst v; lia).
  split.
  - rewrite Hq. unfold Qle. simpl. lia.
  - rewrite Hq. unfold Qabs, Qminus, Qplus, Qopp, Qmult, Qle. simpl Qnum. simpl Qden.
    change (2 ^ 134) with 21778071482940061661655974875633165533184 in Herr.
    change (10 ^ 9) with 1000000000 in Herr. change (2 ^ 51) with 2251799813685248 in Herr.
    rewrite !Pos2Z.inj_mul.
    replace (v * 1000000000 + - d * 21778071482940061661655974875633165533184)
      with (v * 1000000000 - d * 21778071482940061661655974875633165533184) by lia.
    remember (Z.abs (v * 1000000000 - d * 21778071482940061661655974875633165533184)) as A.
    lia.
Qed.
End float_facts.

(** ** Facts about interleaving *)

Section interleave_facts.
  Context {A : Type}.
  Implicit Types (qs : list (list A)) (x : A).

Lemma take_nth_Permutation n qs x qs' :
  take_nth n qs = Some (x, qs') → concat qs ≡ₚ x :: concat qs'.
Proof.
  revert n x qs'. induction qs as [|q qs IH]; intros n x qs' Hn; [done|].
  destruct q as [|y q]; simpl in Hn.
  - destruct (take_nth n qs) as [[a r]|] eqn:E; simplify_eq/=.
    by apply (IH n).
  - destruct n as [|n]; [by simplify_eq/=|].
    destruct (take_nth n qs) as [[a r]|] eqn:E; simplify_eq/=.
    rewrite (IH _ _ _ E). change (y :: q ++ x :: concat r) with ((y :: q) ++ x :: concat r).
    by rewrite <- Permutation_middle.
Qed.

Lemma take_nth_length n qs x qs' :
  take_nth n qs = Some (x, qs') → length (concat qs) = S (length (concat qs')).
Proof. intros H. by rewrite (take_nth_Permutation _ _ _ _ H). Qed.

Lemma take_nth_first_None qs : take_nth 0 qs = None → concat qs = [].
Proof.
  induction qs as [|[|y q] qs IH]; simpl; [done| |done].
  destruct (take_nth 0 qs) as [[a r]|]; [done|]. auto.
Qed.

Lemma interleave_aux_Permutation fuel sched qs :
  length (concat qs) = fuel → interleave_aux fuel sched qs ≡ₚ concat qs.
Proof.
  revert sched qs. induction fuel as [|fuel IH]; intros sched qs Hlen.
  - by apply nil_length_inv in Hlen as ->.
  - simpl. destruct (take_nth (hd 0%nat sched) qs) as [[x qs']|] eqn:E.
    + rewrite (take_nth_Permutation _ _ _ _ E). f_equiv. apply IH.
      apply take_nth_length in E. lia.
    + destruct (take_nth 0 qs) as [[x qs']|] eqn:E0.
      * rewrite (take_nth_Permutation _ _ _ _ E0). f_equiv. apply IH.
        apply take_nth_length in E0. lia.
      * apply take_nth_first_None in E0. rewrite E0 in Hlen. done.
Qed.

(** The channel delivers every sample of every sender, once. *)
Lemma interleave_Permutation sched qs : interleave sched qs ≡ₚ concat qs.
Proof. by apply interleave_aux_Permutation. Qed.

Lemma take_nth_Some n qs x qs' :
  take_nth n qs = Some (x, qs') →
  ∃ i q, qs !! i = Some (x :: q) ∧ qs' = <[i:=q]> qs.
Proof.
  revert n x qs'. induction qs as [|q0 qs IH]; intros n x qs' Hn; [done|].
  destruct q0 as [|y q0]; simpl in Hn.
  - destruct (take_nth n qs) as [[a r]|] eqn:E; simplify_eq/=.
    destruct (IH _ _ _ E) as (i & q & Hi & ->). by exists (S i), q.
  - destruct n as [|n]; simplify_eq/=; [by exists 0%nat, q0|].
    destruct (take_nth n qs) as [[a r]|] eqn:E; simplify_eq/=.
    destruct (IH _ _ _ E) as (i & q & Hi & ->). by exists (S i), q.
Qed.

Lemma take_nth_rank qs i x q :
  qs !! i = Some (x :: q) → take_nth (rank qs i) qs = Some (x, <[i:=q]> qs).
Proof.
  revert i. induction qs as [|q0 qs IH]; intros i Hi; [done|].
  destruct i as [|i]; simpl in Hi.
  - by simplify_eq/=.
  - destruct q0 as [|y q0]; simpl; by rewrite (IH _ Hi).
Qed.

(** Whatever the schedule, the channel delivers the samples in one of the
    possible orders. *)
Lemma interleave_Interleaving sched qs : Interleaving qs (interleave sched qs).
Proof.
  unfold interleave. remember (length (concat qs)) as fuel eqn:Hfuel.
  revert sched qs Hfuel. induction fuel as [|fuel IH]; intros sched qs Hfuel; simpl.
  - constructor. symmetry in Hfuel. apply nil_length_inv in Hfuel.
    apply Forall_forall. intros q Hq. destruct q as [|y q]; [done|].
    assert (y ∈ concat qs) as Hy; [|by rewrite Hfuel in Hy; apply elem_of_nil in Hy].
    apply list_elem_of_In, in_concat. exists (y :: q).
    split; apply list_elem_of_In; [done|by left].
  - assert (∀ n x qs', take_nth n qs = Some (x, qs') →
        Interleaving qs (x :: interleave_aux fuel (tl sched) qs')) as Hstep.
    { intros n x qs' E. destruct (take_nth_Some _ _ _ _ E) as (i & q & Hi & ->).
      econstructor; [exact Hi|]. apply IH.
      apply take_nth_length in E. lia. }
    destruct (take_nth (hd 0%nat sched) qs) as [[x qs']|] eqn:E; [by eapply Hstep|].
    destruct (take_nth 0 qs) as [[x qs']|] eqn:E0; [by eapply Hstep|].
    apply take_nth_first_None in E0. by rewrite E0 in Hfuel.
Qed.

(** Every possible order is the one some schedule gives. *)
Lemma Interleaving_interleave qs l :
  Interleaving qs l → ∃ sched, interleave sched qs = l.
Proof.
  induction 1 as [qs Hqs|qs i x q l Hi _ [sched IH]].
  - exists []. unfold interleave.
    assert (concat qs = []) as ->; [|done].
    induction Hqs as [|q qs -> _ IHqs]; [done|]. done.
  - exists (rank qs i :: sched). unfold interleave in *.
    pose proof (take_nth_rank _ _ _ _ Hi) as E.
    rewrite (take_nth_length _ _ _ _ E). simpl. by rewrite E, IH.
Qed.

Lemma interleave_nil sched : interleave sched (@nil (list A)) = [].
Proof. done. Qed.

Lemma elem_of_interleave sched qs x :
  x ∈ interleave sched qs ↔ ∃ q, q ∈ qs ∧ x ∈ q.
Proof.
  rewrite interleave_Permutation, list_elem_of_In, in_concat.
  setoid_rewrite list_elem_of_In. naive_solver.
Qed.
End interleave_facts.

(** ** Facts about the gather loop *)

Section gather_facts.
  Import Exporter ExporterSpec.
  Implicit Types (st : gather_state) (l : list Metric) (s x : Metric)
    (m : gmap string MetricFamily) (f : MetricFamily) (n : string).

Lemma gather_loop_app st l1 l2 :
  gather_loop st (l1 ++ l2) =
  result_bind (gather_loop st l1) (λ st', gather_loop st' l2).
Proof.
  revert st. induction l1 as [|x l1 IH]; intros st; simpl; [done|].
  destruct (gather_step st x) as [st'|]; simpl; [apply IH|done].
Qed.

Lemma gather_loop_snoc st l x :
  gather_loop st (l ++ [x]) =
  result_bind (gather_loop st l) (λ st', gather_step st' x).
Proof.
  rewrite gather_loop_app. destruct (gather_loop st l) as [st'|]; simpl; [|done].
  by destruct (gather_step st' x).
Qed.

Lemma total_samples_empty : total_samples ∅ = 0%nat.
Proof. unfold total_samples. by rewrite map_to_list_empty. Qed.

Lemma total_samples_insert_fresh m n f :
  m !! n = None →
  total_samples (<[n:=f]> m) = (length (mf_Metric f) + total_samples m)%nat.
Proof.
  intros Hn. unfold total_samples. by rewrite (map_to_list_insert _ _ _ Hn).
Qed.

Lemma total_samples_insert_append m n f dm :
  m !! n = Some f →
  total_samples (<[n:=append_Metric f dm]> m) = S (total_samples m).
Proof.
  intros Hn. rewrite <- insert_delete_eq.
  rewrite total_samples_insert_fresh by apply lookup_delete_eq.
  unfold total_samples at 2. rewrite <- (map_to_list_delete _ _ _ Hn).
  simpl. rewrite length_app. unfold total_samples. simpl. lia.
Qed.

Lemma family_ok_mono l x n f : family_ok l n f → family_ok (l ++ [x]) n f.
Proof.
  intros [Hname Htype Hfirst Hfrom]. split; [done|done| |].
  - destruct Hfirst as (s & d & dm & rest & Hs & ?). exists s, d, dm, rest.
    split; [|done]. apply elem_of_app; by left.
  - intros dm Hdm. destruct (Hfrom dm Hdm) as (s & d & Hs & ?).
    exists s, d. split; [|done]. apply elem_of_app; by left.
Qed.

Lemma error_from_mono l x e : error_from l e → error_from (l ++ [x]) e.
Proof.
  intros (s & Hs & H). exists s. split; [|done]. apply elem_of_app; by left.
Qed.

Lemma accounted_mono st st' s : grows st st' → accounted st s → accounted st' s.
Proof.
  intros [Herr Hfam] [(e & ? & ?)|[(dm & d & f & ? & Hf & ?)|(dm & d & ? & ? & ? & ?)]].
  - left. exists e. auto.
  - right; left. destruct (Hfam _ _ Hf) as (f' & ? & ?). exists dm, d, f'. auto.
  - right; right. exists dm, d. auto.
Qed.

Lemma gather_step_grows st x st' : gather_step st x = Returned st' → grows st st'.
Proof.
  unfold gather_step. destruct (Write x empty_dtoMetric) as [dm [e|]].
  { intros [= <-]. split; simpl; [|by eauto].
    intros e' ?. apply elem_of_app; by left. }
  destruct (Desc x) as [d|]; [|done].
  destruct (dtoMetricFamilies st !! Name d) as [f|] eqn:Hf.
  { intros [= <-]. split; simpl; [done|]. intros n f0 Hn.
    destruct (decide (n = Name d)) as [->|Hne].
    - rewrite lookup_insert_eq. assert (f0 = f) as -> by congruence.
      eexists; split; [done|]. simpl. intros ? ?. apply elem_of_app; by left.
    - rewrite lookup_insert_ne by done. eauto. }
  assert (∀ f', grows st {| dtoMetricFamilies := <[Name d:=f']> (dtoMetricFamilies st);
                           errs := errs st |}) as Hnew.
  { intros f'. split; simpl; [done|]. intros n f0 Hn.
    assert (n ≠ Name d) by congruence.
    rewrite lookup_insert_ne by done. eauto. }
  destruct (Gauge dm), (Counter dm); intros [= <-]; try apply Hnew.
  split; simpl; [|by eauto]. intros e' ?. apply elem_of_app; by left.
Qed.

Lemma gather_step_inv l st x st' :
  loop_inv l st → gather_step st x = Returned st' → loop_inv (l ++ [x]) st'.
Proof.
  intros [Hfams Herrs Hcount Hall] Hstep.
  pose proof (gather_step_grows _ _ _ Hstep) as Hgrows.
  assert (∀ s, s ∈ l ++ [x] → accounted st' x → accounted st' s) as Hacc.
  { intros s [Hs| ->%list_elem_of_singleton]%elem_of_app Hx; [|done].
    eapply accounted_mono; eauto. }
  assert (x ∈ l ++ [x]) as Hxl by (apply elem_of_app; right; by left).
  revert Hstep. unfold gather_step.
  destruct (Write x empty_dtoMetric) as [dm [e|]] eqn:HW.
  { (* the write failed *)
    intros [= <-]. split; simpl.
    - intros n f Hn. by apply family_ok_mono, Hfams.
    - intros e' [He'| ->%list_elem_of_singleton]%elem_of_app.
      + by apply error_from_mono, Herrs.
      + exists x. split; [done|]. left. by exists dm.
    - rewrite !length_app. simpl. lia.
    - intros s Hs. apply Hacc; [done|]. left. exists e. split; [by exists dm|].
      simpl. apply elem_of_app; right; by left. }
  destruct (Desc x) as [d|] eqn:HD; [|done].
  assert (writes x dm d) as Hwr by done.
  destruct (dtoMetricFamilies st !! Name d) as [f|] eqn:Hf.
  { (* the family exists *)
    intros [= <-]. split; simpl.
    - intros n f0. destruct (decide (n = Name d)) as [->|Hne].
      + rewrite lookup_insert_eq. intros [= <-].
        destruct (Hfams _ _ Hf) as [Hname Htype Hfirst Hfrom].
        split; simpl; [done|done| |].
        * destruct Hfirst as (s & d0 & dm0 & rest & Hs & ? & ? & ? & ? & Hm).
          exists s, d0, dm0, (rest ++ [dm]). rewrite Hm.
          split; [apply elem_of_app; by left|done].
        * intros dm' [Hdm'| ->%list_elem_of_singleton]%elem_of_app.
          -- destruct (Hfrom _ Hdm') as (s & d0 & ? & ?). exists s, d0.
             split; [apply elem_of_app; by left|done].
          -- by exists x, d.
      + rewrite lookup_insert_ne by done. intros Hn.
        by apply family_ok_mono, Hfams.
    - intros e' He'. by apply error_from_mono, Herrs.
    - rewrite (total_samples_insert_append _ _ _ _ Hf), length_app. simpl. lia.
    - intros s Hs. apply Hacc; [done|]. right; left.
      exists dm, d, (append_Metric f dm). split; [done|]. simpl.
      rewrite lookup_insert_eq. split; [done|]. apply elem_of_app; right; by left. }
  (* no family of that name yet *)
  assert (∀ ty, (ty = GAUGE ∨ ty = COUNTER) → written_type dm = Some ty →
    st' =
      {| dtoMetricFamilies :=
           <[Name d:=append_Metric
               {| mf_Name := Some (Name d); mf_Help := Some (Help d);
                  mf_Type := Some ty; mf_Metric := [] |} dm]>
             (dtoMetricFamilies st);
         errs := errs st |} →
    loop_inv (l ++ [x]) st') as Hnew.
  { intros ty Hty Hwt ->. split; simpl.
    - intros n f0. destruct (decide (n = Name d)) as [->|Hne].
      + rewrite lookup_insert_eq. intros [= <-]. split; simpl.
        * done.
        * destruct Hty as [-> | ->]; auto.
        * by exists x, d, dm, [].
        * intros dm' ->%list_elem_of_singleton. by exists x, d.
      + rewrite lookup_insert_ne by done. intros Hn.
        by apply family_ok_mono, Hfams.
    - intros e' He'. by apply error_from_mono, Herrs.
    - rewrite (total_samples_insert_fresh _ _ _ Hf), length_app. simpl. lia.
    - intros s Hs. apply Hacc; [done|]. right; left.
      eexists dm, d, _. split; [done|]. simpl.
      rewrite lookup_insert_eq. split; [done|]. by left. }
  destruct (Gauge dm) as [g|] eqn:HG; [|destruct (Counter dm) as [c|] eqn:HC].
  - intros [= <-]. apply (Hnew GAUGE); [by left| |done].
    unfold written_type. by rewrite HG.
  - intros [= <-]. apply (Hnew COUNTER); [by right| |done].
    unfold written_type. by rewrite HG, HC.
  - intros [= <-]. split; simpl.
    + intros n f Hn. by apply family_ok_mono, Hfams.
    + intros e' [He'| ->%list_elem_of_singleton]%elem_of_app.
      * by apply error_from_mono, Herrs.
      * exists x. split; [done|]. right. by exists dm, d.
    + rewrite !length_app. simpl. lia.
    + intros s Hs. apply Hacc; [done|]. right; right. exists dm, d.
      repeat split; try done. simpl. apply elem_of_app; right; by left.
Qed.

Lemma loop_inv_init : loop_inv [] gather_init.
Proof.
  split; simpl.
  - intros n f. by rewrite lookup_empty.
  - intros e. by rewrite elem_of_nil.
  - by rewrite total_samples_empty.
  - intros s. by rewrite elem_of_nil.
Qed.

(** The invariant holds when the loop ends. *)
Lemma gather_loop_inv l st :
  gather_loop gather_init l = Returned st → loop_inv l st.
Proof.
  revert st. induction l as [|x l IH] using rev_ind; intros st.
  - intros [= <-]. apply loop_inv_init.
  - rewrite gather_loop_snoc.
    destruct (gather_loop gather_init l) as [st0|]; simpl; [|done].
    intros Hstep. eapply gather_step_inv; eauto.
Qed.

Lemma gather_step_total st x :
  well_formed x → ∃ st', gather_step st x = Returned st'.
Proof.
  intros Hwf. unfold gather_step.
  destruct (Write x empty_dtoMetric) as [dm [e|]] eqn:HW; [by eauto|].
  destruct (Hwf dm HW) as [d ->].
  destruct (dtoMetricFamilies st !! Name d); [by eauto|].
  destruct (Gauge dm), (Counter dm); eauto.
Qed.

(** The loop runs to the end of the channel on well-formed samples. *)
Lemma gather_loop_total st l :
  Forall well_formed l → ∃ st', gather_loop st l = Returned st'.
Proof.
  intros Hl. revert st. induction Hl as [|x l Hx Hl IH]; intros st; simpl.
  - by eauto.
  - destruct (gather_step_total st x Hx) as [st' ->]. simpl. apply IH.
Qed.
End gather_facts.

(** Membership in a list that is written out: one case per element. *)
Ltac elem_cases :=
  repeat match goal with
    | H : _ ∈ _ :: _ |- _ => apply elem_of_cons in H as [->|H]
    | H : _ ∈ [] |- _ => by apply elem_of_nil in H
    end.

(** Membership in a list that is given by a closed term: evaluate the
    list. *)
Ltac eval_list_in H :=
  match type of H with
  | ?x ∈ ?l => let l' := eval vm_compute in l in change (x ∈ l') in H
  end.

(** ** Facts about what [Gather] returns *)

Section gather_claims.
  Import Exporter ExporterSpec ExporterClaims.

Lemma gather_chan_Returned l fams errs0 :
  gather_chan l = Returned (fams, errs0) →
  ∃ st, gather_loop gather_init l = Returned st ∧
        fams = (map_to_list (dtoMetricFamilies st)).*2 ∧ errs0 = errs st.
Proof.
  unfold gather_chan. destruct (gather_loop gather_init l) as [st|]; [|done].
  intros [= <- <-]. by exists st.
Qed.

Lemma elem_of_families st f :
  f ∈ (map_to_list (dtoMetricFamilies st)).*2 ↔
  ∃ n, dtoMetricFamilies st !! n = Some f.
Proof.
  rewrite list_elem_of_fmap. split.
  - intros ([n f'] & -> & Hin). exists n. by apply elem_of_map_to_list.
  - intros [n Hn]. exists (n, f). split; [done|]. by apply elem_of_map_to_list.
Qed.

Lemma family_names_NoDup l st :
  loop_inv l st → NoDup (mf_Name <$> (map_to_list (dtoMetricFamilies st)).*2).
Proof.
  intros Hinv.
  assert (mf_Name <$> (map_to_list (dtoMetricFamilies st)).*2
          = Some <$> (map_to_list (dtoMetricFamilies st)).*1) as ->.
  { rewrite <- !list_fmap_compose. apply list_fmap_ext.
    intros i [n f] Hi. simpl.
    apply (fam_name l), (inv_fams _ _ Hinv).
    apply elem_of_map_to_list, list_elem_of_lookup. eauto. }
  apply NoDup_fmap_2; [apply _|]. apply NoDup_fst_map_to_list.
Qed.

Lemma total_samples_families st :
  total_samples (dtoMetricFamilies st) =
  sum_list_with (λ f, length (mf_Metric f)) (map_to_list (dtoMetricFamilies st)).*2.
Proof.
  unfold total_samples. induction (map_to_list (dtoMetricFamilies st)) as [|[n f] r IH];
    simpl; [done|]. by rewrite IH.
Qed.

Lemma gather_family_ok l fams errs0 f :
  gather_chan l = Returned (fams, errs0) → f ∈ fams → ∃ n, family_ok l n f.
Proof.
  intros (st & Hloop & -> & ->)%gather_chan_Returned [n Hn]%elem_of_families.
  exists n. by apply (inv_fams _ _ (gather_loop_inv _ _ Hloop)).
Qed.

Lemma gather_write_error_kept l fams errs0 s e :
  gather_chan l = Returned (fams, errs0) → s ∈ l → write_fails s e → e ∈ errs0.
Proof.
  intros (st & Hloop & -> & ->)%gather_chan_Returned Hs [dm Hfail].
  destruct (inv_all _ _ (gather_loop_inv _ _ Hloop) s Hs)
    as [(e' & [dm' ?] & ?)|[(dm' & d & f & [? ?] & _)|(dm' & d & [? ?] & _)]];
    congruence.
Qed.

Lemma gather_sample_placed l fams errs0 s dm d :
  gather_chan l = Returned (fams, errs0) → s ∈ l → writes s dm d →
  (∃ f, f ∈ fams ∧ mf_Name f = Some (Name d) ∧ dm ∈ mf_Metric f) ∨
  (Gauge dm = None ∧ Counter dm = None ∧ errDontKnowHowToHandle dm ∈ errs0).
Proof.
  intros (st & Hloop & -> & ->)%gather_chan_Returned Hs [HW HD].
  pose proof (gather_loop_inv _ _ Hloop) as Hinv.
  destruct (inv_all _ _ Hinv s Hs)
    as [(e' & [dm' ?] & ?)|[(dm' & d' & f & [? ?] & Hf & ?)
                            |(dm' & d' & [? ?] & ? & ? & ?)]].
  - congruence.
  - left. assert (dm' = dm) as -> by congruence.
    assert (d' = d) as -> by congruence.
    exists f. split; [apply elem_of_families; eauto|].
    split; [|done]. apply (fam_name l), (inv_fams _ _ Hinv), Hf.
  - right. by assert (dm' = dm) as -> by congruence.
Qed.

Lemma gather_errors_from l fams errs0 e :
  gather_chan l = Returned (fams, errs0) → e ∈ errs0 → error_from l e.
Proof.
  intros (st & Hloop & -> & ->)%gather_chan_Returned.
  apply (inv_errs _ _ (gather_loop_inv _ _ Hloop)).
Qed.

Lemma gather_count l fams errs0 :
  gather_chan l = Returned (fams, errs0) →
  (length errs0 + sum_list_with (λ f, length (mf_Metric f)) fams)%nat = length l.
Proof.
  intros (st & Hloop & -> & ->)%gather_chan_Returned.
  rewrite <- total_samples_families.
  apply (inv_count _ _ (gather_loop_inv _ _ Hloop)).
Qed.

Lemma gather_chan_total l :
  Forall well_formed l → ∃ fams errs0, gather_chan l = Returned (fams, errs0).
Proof.
  intros Hl. destruct (gather_loop_total gather_init l Hl) as [st Hst].
  unfold gather_chan. rewrite Hst. simpl. unfold gather_result. eauto.
Qed.

End gather_claims.

(** ** Facts about the target *)

Section target_facts.
  Import Target TargetSpec.
  Implicit Types (env : Env) (ctx : Context) (t : target) (w : World).

Lemma ctx_Err_cases ctx a :
  ctx_Err ctx a = None ∨ ctx_Err ctx a = Some DeadlineExceeded.
Proof.
  unfold ctx_Err. destruct (ctx_deadline ctx); [|by left].
  case_bool_decide; auto.
Qed.

(** An expired context stays expired. *)
Lemma ctx_Err_mono ctx a b :
  a ≤ b → ctx_Err ctx a ≠ None → ctx_Err ctx b = ctx_Err ctx a.
Proof.
  unfold ctx_Err. destruct (ctx_deadline ctx) as [d|]; [|done].
  intros Hab. repeat case_bool_decide; (done || lia).
Qed.

(** The second and third part of the probe, for a target with a handle. *)
Lemma ping_check_handle env ctx t w c :
  conn t = Some c →
  (let '(r, w') := ping_check env ctx t w in
   match r with
   | inr err => (Some err, w')
   | inl _ => (ctx_Err ctx (now w'), w')
   end) = ping_handle env ctx c w.
Proof.
  intros Hc. unfold ping_check, ping_handle. rewrite Hc.
  destruct (ctx_Err ctx (now w)) as [e0|] eqn:He; [by rewrite He|].
  destruct (PingDB env ctx c w) as [[e|] w']; [|done].
  case_decide as Hne; [done|].
  destruct (ctx_Err ctx (now w')); naive_solver.
Qed.

Lemma ping_with_handle env ctx t w c :
  conn t = Some c →
  ping env ctx t w = ((ping_handle env ctx c w).1, t, (ping_handle env ctx c w).2).
Proof.
  intros Hc. rewrite <- (ping_check_handle env ctx t w c Hc).
  unfold ping, ping_open. rewrite Hc.
  by destruct (ping_check env ctx t w) as [[?|?] ?].
Qed.

Lemma ping_without_handle env ctx t w :
  conn t = None →
  ping env ctx t w =
  let '(r, w1) := OpenConnection env ctx (logContext t) (dsn t) w in
  match r with
  | inr e => (Some e, t, w1)
  | inl c => ((ping_handle env ctx c w1).1, set_conn t c,
              (ping_handle env ctx c w1).2)
  end.
Proof.
  intros Hc. unfold ping, ping_open. rewrite Hc.
  destruct (OpenConnection env ctx (logContext t) (dsn t) w) as [[c|e] w1].
  - rewrite <- (ping_check_handle env ctx (set_conn t c) w1 c eq_refl).
    by destruct (ping_check env ctx (set_conn t c) w1) as [[?|?] ?].
  - case_decide as Hne; [done|]. unfold ping_check. rewrite Hc.
    destruct (ctx_Err ctx (now w1)); naive_solver.
Qed.

Lemma OpenConnection_world env ctx lc d w :
  now w ≤ now (OpenConnection env ctx lc d w).2 ∧
  history (OpenConnection env ctx lc d w).2 =
    history w ++ [CallOpenConnection lc d (OpenConnection env ctx lc d w).1] ∧
  (OpenConnection env ctx lc d w).1 = (env_OpenConnection env w ctx lc d).2.
Proof.
  unfold OpenConnection. destruct (env_OpenConnection env w ctx lc d) as [el r].
  simpl. split; [lia|done].
Qed.

Lemma ping_handle_world env ctx c w :
  now w ≤ now (ping_handle env ctx c w).2 ∧
  history (ping_handle env ctx c w).2 =
    history w ++ match ctx_Err ctx (now w) with
                 | Some _ => []
                 | None => [CallPingDB c (env_PingDB env w ctx c).2]
                 end ∧
  ((ping_handle env ctx c w).1 = None →
   ctx_Err ctx (now (ping_handle env ctx c w).2) = None).
Proof.
  unfold ping_handle, PingDB.
  destruct (ctx_Err ctx (now w)) as [e|] eqn:He; simpl.
  { split; [lia|]. split; [by rewrite app_nil_r|done]. }
  destruct (env_PingDB env w ctx c) as [el [e|]]; simpl; (split; [lia|done]).
Qed.

Lemma set_conn_same t c : conn t = Some c → set_conn t c = t.
Proof. destruct t. simpl. by intros ->. Qed.

Lemma set_conn_fields t c :
  conn (set_conn t c) = Some c ∧
  logContext (set_conn t c) = logContext t ∧ dsn (set_conn t c) = dsn t ∧
  upDesc (set_conn t c) = upDesc t ∧
  scrapeDurationDesc (set_conn t c) = scrapeDurationDesc t ∧
  collectors (set_conn t c) = collectors t.
Proof. done. Qed.

(** The probe leaves everything but the connection field as it was. *)
Lemma ping_fields env ctx t w :
  let t' := (ping env ctx t w).1.2 in
  logContext t' = logContext t ∧ dsn t' = dsn t ∧ upDesc t' = upDesc t ∧
  scrapeDurationDesc t' = scrapeDurationDesc t ∧ collectors t' = collectors t.
Proof.
  destruct (conn t) as [c|] eqn:Hc.
  - by rewrite (ping_with_handle _ _ _ _ _ Hc).
  - rewrite (ping_without_handle _ _ _ _ Hc).
    by destruct (OpenConnection env ctx (logContext t) (dsn t) w) as [[c|e] w1].
Qed.

(** Time does not run backwards during the probe, and a probe that ends
    after the deadline reports an error. *)
Lemma ping_world env ctx t w :
  now w ≤ now (ping env ctx t w).2 ∧
  ((ping env ctx t w).1.1 = None → ctx_Err ctx (now (ping env ctx t w).2) = None).
Proof.
  destruct (conn t) as [c|] eqn:Hc.
  - rewrite (ping_with_handle _ _ _ _ _ Hc). simpl.
    destruct (ping_handle_world env ctx c w) as (? & _ & ?). done.
  - rewrite (ping_without_handle _ _ _ _ Hc).
    pose proof (OpenConnection_world env ctx (logContext t) (dsn t) w) as (Hle & _).
    destruct (OpenConnection env ctx (logContext t) (dsn t) w) as [[c|e] w1];
      simpl in *; [|done].
    destruct (ping_handle_world env ctx c w1) as (? & _ & ?). split; [lia|done].
Qed.

(** The driver calls of a probe. *)
Lemma ping_calls env ctx t w :
  ∃ calls, history (ping env ctx t w).2 = history w ++ calls ∧
           scrape_calls t (ping env ctx t w).1.2 calls.
Proof.
  unfold scrape_calls. destruct (conn t) as [c|] eqn:Hc.
  - rewrite (ping_with_handle _ _ _ _ _ Hc). simpl.
    destruct (ping_handle_world env ctx c w) as (_ & Hh & _).
    eexists. split; [exact Hh|]. split; [done|].
    destruct (ctx_Err ctx (now w)); eauto.
  - rewrite (ping_without_handle _ _ _ _ Hc).
    pose proof (OpenConnection_world env ctx (logContext t) (dsn t) w) as (_ & Hh & _).
    destruct (OpenConnection env ctx (logContext t) (dsn t) w) as [[c|e] w1];
      simpl in *.
    + destruct (ping_handle_world env ctx c w1) as (_ & Hh2 & _).
      eexists. split; [by rewrite Hh2, Hh, <- app_assoc|].
      right. exists c. split; [done|].
      destruct (ctx_Err ctx (now w1)); simpl; eauto.
    + eexists. split; [exact Hh|]. left. eauto.
Qed.

Lemma run_collectors_spec env ctx t w :
  (run_collectors env ctx t w).1 =
    interleave (env_schedule env w) (collector_sends ctx t w) ∧
  now w ≤ now (run_collectors env ctx t w).2 ∧
  history (run_collectors env ctx t w).2 = history w.
Proof.
  unfold run_collectors, collector_sends. simpl.
  rewrite <- list_fmap_compose. split; [done|]. split; [lia|done].
Qed.

(** [Collect], by the outcome of the probe. *)
Lemma Collect_spec env ctx t w :
  Collect env ctx t w =
  let '(err, t1, w1) := ping env ctx t w in
  match err with
  | Some e =>
      ([NewInvalidMetric (logContext t1) e;
        NewMetric (upDesc t1) (boolToFloat64 false);
        NewMetric (scrapeDurationDesc t1) (seconds (time_Sub (now w1) (now w)))],
       t1, w1)
  | None =>
      (NewMetric (upDesc t1) (boolToFloat64 true)
         :: (run_collectors env ctx t1 w1).1
         ++ [NewMetric (scrapeDurationDesc t1)
               (seconds (time_Sub (now (run_collectors env ctx t1 w1).2) (now w)))],
       t1, (run_collectors env ctx t1 w1).2)
  end.
Proof.
  unfold Collect. destruct (ping env ctx t w) as [[[e|] t1] w1]; [done|].
  by destruct (run_collectors env ctx t1 w1).
Qed.

Lemma Collect_target_world env ctx t w :
  (Collect env ctx t w).1.2 = (ping env ctx t w).1.2 ∧
  history (Collect env ctx t w).2 = history (ping env ctx t w).2 ∧
  now (ping env ctx t w).2 ≤ now (Collect env ctx t w).2.
Proof.
  rewrite Collect_spec. destruct (ping env ctx t w) as [[[e|] t1] w1]; simpl.
  - split; [done|]. split; [done|lia].
  - destruct (run_collectors_spec env ctx t1 w1) as (_ & ? & ?). done.
Qed.

Lemma Collect_calls env ctx t w :
  ∃ calls, history (Collect env ctx t w).2 = history w ++ calls ∧
           scrape_calls t (Collect env ctx t w).1.2 calls.
Proof.
  destruct (Collect_target_world env ctx t w) as (-> & -> & _).
  apply ping_calls.
Qed.


Lemma count_named_none n l :
  (∀ m, m ∈ l → has_name n m = false) → count_named n l = 0%nat.
Proof.
  unfold count_named. induction l as [|m l IH]; intros H; [done|].
  rewrite filter_cons_False.
  - apply IH. intros m' Hm'. apply H. by right.
  - rewrite (H m); [done|by left].
Qed.

Lemma count_named_nil n : count_named n [] = 0%nat.
Proof. done. Qed.

Lemma count_named_app n l1 l2 :
  count_named n (l1 ++ l2) = (count_named n l1 + count_named n l2)%nat.
Proof. unfold count_named. by rewrite filter_app, length_app. Qed.

Lemma count_named_cons n m l :
  count_named n (m :: l) =
  ((if has_name n m then 1 else 0) + count_named n l)%nat.
Proof.
  unfold count_named. destruct (has_name n m) eqn:Hm.
  - by rewrite filter_cons_True.
  - rewrite filter_cons_False; [done|]. by rewrite Hm.
Qed.
End target_facts.

(** ** Facts about the channel [Gather] drains *)

Section gather_chan_facts.
  Import Target TargetSpec Exporter ExporterSpec.

Lemma NewMetric_well_formed d v : well_formed (NewMetric d v).
Proof. intros dm _. by eexists. Qed.

Lemma NewInvalidMetric_well_formed lc e : well_formed (NewInvalidMetric lc e).
Proof. by intros dm. Qed.

(** A target whose collectors send well-formed samples sends well-formed
    samples. *)
Lemma Collect_well_formed env ctx t w :
  (∀ c w1 conn1, c ∈ collectors t →
     Forall well_formed (collector_Collect c w1 ctx conn1).2) →
  Forall well_formed (Collect env ctx t w).1.1.
Proof.
  intros Hcoll. rewrite Collect_spec.
  pose proof (ping_fields env ctx t w) as (_ & _ & _ & _ & Hcs).
  destruct (ping env ctx t w) as [[[e|] t1] w1]; cbn [fst snd] in *.
  - repeat constructor;
      auto using NewMetric_well_formed, NewInvalidMetric_well_formed.
  - constructor; [apply NewMetric_well_formed|]. apply Forall_app. split.
    + rewrite (proj1 (run_collectors_spec env ctx t1 w1)).
      apply Forall_forall. intros m (q & Hq & Hm)%elem_of_interleave.
      unfold collector_sends in Hq. apply list_elem_of_fmap in Hq as (c & -> & Hc).
      rewrite Hcs in Hc. by eapply Forall_forall; [apply (Hcoll c)|].
    + repeat constructor. apply NewMetric_well_formed.
Qed.

(** Every sample on the channel was sent by the [Collect] of a target. *)
Lemma elem_of_Gather_chan env e w s :
  s ∈ Gather_chan env e w ↔
  ∃ i t, targets e !! i = Some t ∧
         s ∈ (Collect env (Gather_ctx e (now w)) t (spawn w i)).1.1.
Proof.
  unfold Gather_chan, Gather_runs. rewrite elem_of_interleave. split.
  - intros (q & (r & -> & Hr)%list_elem_of_fmap & Hs).
    apply elem_of_lookup_imap in Hr as (i & t & -> & Ht). eauto.
  - intros (i & t & Ht & Hs). eexists. split; [|exact Hs].
    apply list_elem_of_fmap. eexists. split; [done|].
    apply elem_of_lookup_imap. eauto.
Qed.

Lemma Gather_chan_well_formed env e w :
  (∀ t c w1 conn1, t ∈ targets e → c ∈ collectors t →
     Forall well_formed (collector_Collect c w1 (Gather_ctx e (now w)) conn1).2) →
  Forall well_formed (Gather_chan env e w).
Proof.
  intros Hcoll. apply Forall_forall. intros s (i & t & Ht & Hs)%elem_of_Gather_chan.
  eapply Forall_forall; [|exact Hs]. apply Collect_well_formed.
  intros c w1 conn1. apply Hcoll. by eapply list_elem_of_lookup_2.
Qed.
End gather_chan_facts.

(** ** The sample target is one that [NewTarget] builds *)

Section NewTarget_facts.
  Import Target Samples.

(** Whatever [NewTarget] returns has no connection yet, and its two
    automatic descriptors are gauges named [up] and
    [scrape_duration_seconds]. *)
Lemma NewTarget_fields {CollectorConfig : Type}
    (NewCollector : string → CollectorConfig → list LabelPair → Collector + error)
    (quote : string → string) lc n d ccs labels t :
  NewTarget NewCollector quote lc n d ccs labels = inl t →
  conn t = None ∧
  Name (upDesc t) = upMetricName ∧
  Name (scrapeDurationDesc t) = scrapeDurationName ∧
  desc_ValueType (upDesc t) = GaugeValue ∧
  desc_ValueType (scrapeDurationDesc t) = GaugeValue.
Proof.
  unfold NewTarget.
  destruct (new_collectors _ _ _ _) as [cs|e]; [|done]. by intros [= <-].
Qed.

Lemma NewTarget_db1 :
  NewTarget (CollectorConfig := Collector) (λ _ c _, inl c) id
    "job=mssql" "db1" "sqlserver://db1" [collector_m; collector_k] ∅
  = inl db1.
Proof. reflexivity. Qed.
End NewTarget_facts.

(** ** Facts about scrapes that overlap *)

Section overlap_facts.
  Import Target TargetSpec Exporter Overlap.
  Implicit Types (env : Env) (ctx : Context) (t : target) (w : World) (s : pool)
    (p : pc) (th : thread) (sched : list event) (tr : list (nat * Call)).

Lemma kept_refl t : kept t t.
Proof. by left. Qed.

Lemma kept_trans t1 t2 t3 : kept t1 t2 → kept t2 t3 → kept t1 t3.
Proof.
  intros [->|[c ->]] [->|[c' ->]]; [by left|right; eauto|right; eauto|].
  right. by exists c'.
Qed.

Lemma kept_conn t t' : kept t t' → is_Some (conn t) → is_Some (conn t').
Proof. intros [->|[c ->]] H; [done|]. by eexists. Qed.

Lemma kept_opened_only t t' : kept t t' → conn t = None → opened_only t t'.
Proof. intros [->|[c ->]] H; [by left|]. right. eauto. Qed.

Lemma ping_step_shape env ctx p t w :
  ∃ calls,
    history (ping_step env ctx p t w).2 = history w ++ calls ∧
    step_shape p t (ping_step env ctx p t w).1.1 (ping_step env ctx p t w).1.2 calls.
Proof.
  destruct p; simpl.
  - exists []. rewrite app_nil_r. by destruct (conn t).
  - unfold OpenConnection.
    destruct (env_OpenConnection env w ctx (logContext t) (dsn t)) as [el [c|e]];
      simpl.
    + eexists. split; [done|]. split; [done|]. by eexists (inl c).
    + case_decide; simpl; (eexists; split; [done|]; split; [done|];
        eexists (inr e); split; [done|]; auto).
  - exists []. by rewrite app_nil_r.
  - exists []. rewrite app_nil_r. split; [done|]. split; [done|].
    destruct (conn t), (ctx_Err ctx (now w)); simpl; auto.
  - destruct (conn t) as [c|]; simpl.
    + unfold PingDB. destruct (env_PingDB env w ctx c) as [el [e|]]; simpl.
      * case_decide; simpl; (eexists; split; [done|]; split; [done|];
          eexists; split; [done|]; eauto).
      * eexists. split; [done|]. split; [done|]. eexists. split; [done|]. auto.
    + exists []. by rewrite app_nil_r.
  - exists []. rewrite app_nil_r. repeat split; eauto.
  - exists []. by rewrite app_nil_r.
  - exists []. by rewrite app_nil_r.
Qed.

Lemma step_shape_kept p t p' t' calls : step_shape p t p' t' calls → kept t t'.
Proof.
  destruct p; simpl; try (intros [-> _]; by left).
  intros [-> _]. right. by eexists.
Qed.

(** A step of the pool: nothing but the clock moves, or one goroutine
    takes one step. *)
Lemma pool_step_cases env ev s :
  (p_targets (pool_step env ev s) = p_targets s ∧
   p_threads (pool_step env ev s) = p_threads s ∧
   history (p_world (pool_step env ev s)) = history (p_world s) ∧
   step_trace env ev s = []) ∨
  (∃ i th t p' t' calls,
     p_threads s !! i = Some th ∧
     p_targets s !! th_target th = Some t ∧
     step_shape (th_pc th) t p' t' calls ∧
     p_targets (pool_step env ev s) = <[th_target th := t']> (p_targets s) ∧
     p_threads (pool_step env ev s) =
       <[i := {| th_target := th_target th; th_ctx := th_ctx th; th_pc := p' |}]>
         (p_threads s) ∧
     history (p_world (pool_step env ev s)) = history (p_world s) ++ calls ∧
     step_trace env ev s = (λ c, (th_target th, c)) <$> calls).
Proof.
  destruct ev as [i|d]; [|by left].
  unfold step_trace, calls_since. simpl.
  destruct (p_threads s !! i) as [th|] eqn:Hth; [|by left].
  destruct (p_targets s !! th_target th) as [t|] eqn:Ht.
  - right.
    destruct (ping_step_shape env (th_ctx th) (th_pc th) t (spawn (p_world s) i))
      as (calls & Hh & Hshape).
    destruct (ping_step env (th_ctx th) (th_pc th) t (spawn (p_world s) i))
      as [[p' t'] w'] eqn:Hstep.
    simpl in *. exists i, th, t, p', t', calls.
    repeat split; try done. by rewrite Hh, drop_app_length.
  - left. by rewrite drop_all.
Qed.


Lemma trace_app env sched1 sched2 s :
  trace env (sched1 ++ sched2) s =
  trace env sched1 s ++ trace env sched2 (run env sched1 s).
Proof.
  revert s. induction sched1 as [|ev sched1 IH]; intros s; simpl; [done|].
  by rewrite IH, app_assoc.
Qed.

(** Invariants of the pool are invariants of its steps. *)
Lemma run_invariant (I : list (nat * Call) → pool → Prop) env :
  (∀ tr s ev, I tr s → I (tr ++ step_trace env ev s) (pool_step env ev s)) →
  ∀ sched tr s, I tr s → I (tr ++ trace env sched s) (run env sched s).
Proof.
  intros Hstep sched. induction sched as [|ev sched IH]; intros tr s HI; simpl.
  - by rewrite app_nil_r.
  - rewrite app_assoc. by apply IH, Hstep.
Qed.

Lemma pool_step_kept env ev s :
  Forall2 kept (p_targets s) (p_targets (pool_step env ev s)).
Proof.
  destruct (pool_step_cases env ev s)
    as [(-> & _)|(i & th & t & p' & t' & calls & Hth & Ht & Hshape & -> & _)].
  - apply Forall2_same_length_lookup_2; [done|]. intros k x y ? ?. left. congruence.
  - apply Forall2_same_length_lookup_2; [by rewrite length_insert|].
    intros k x y Hx [(<- & <- & _)|(Hne & Hy)]%list_lookup_insert_Some.
    + assert (x = t) as -> by congruence. by eapply step_shape_kept.
    + left. congruence.
Qed.

Lemma run_kept env sched s :
  Forall2 kept (p_targets s) (p_targets (run env sched s)).
Proof.
  revert s. induction sched as [|ev sched IH]; intros s; simpl.
  - apply Forall2_same_length_lookup_2; [done|]. intros k x y ? ?. left. congruence.
  - eapply Forall2_trans; [|apply pool_step_kept|apply IH].
    intros ???. apply kept_trans.
Qed.

Lemma conn_of_kept s s' j :
  Forall2 kept (p_targets s) (p_targets s') →
  is_Some (conn_of s j) → is_Some (conn_of s' j).
Proof.
  intros Hk. unfold conn_of. destruct (p_targets s !! j) as [t|] eqn:Ht; simpl;
    [|by intros [? ?]].
  destruct (Forall2_lookup_l _ _ _ _ _ Hk Ht) as (t' & -> & Hkept). simpl.
  by apply kept_conn.
Qed.

Lemma calls_of_app j tr1 tr2 : calls_of j (tr1 ++ tr2) = calls_of j tr1 ++ calls_of j tr2.
Proof. unfold calls_of. apply omap_app. Qed.

Lemma calls_of_tag j j' (calls : list Call) :
  calls_of j ((λ c, (j', c)) <$> calls) = if decide (j' = j) then calls else [].
Proof.
  unfold calls_of. induction calls as [|c calls IH]; csimpl; [by case_decide|].
  rewrite IH. by repeat case_decide.
Qed.

(** A target that holds a handle while no scrape of it is between the test
    and the store: a step leaves it so, and a step of a scrape of that
    target calls nothing but [PingDB] on the handle. *)
Lemma settled_step env ev s j c :
  settled s j c →
  settled (pool_step env ev s) j c ∧
  Forall (ping_of c) (calls_of j (step_trace env ev s)).
Proof.
  intros [Hconn Hths]. unfold settled, conn_of in *.
  destruct (pool_step_cases env ev s)
    as [(-> & -> & _ & ->)
       |(i & th & t & p' & t' & calls & Hth & Ht & Hshape & -> & -> & _ & ->)];
    [done|].
  rewrite calls_of_tag.
  pose proof (Forall_lookup_1 _ _ _ _ Hths Hth) as Hout.
  unfold on_target in *. destruct (decide (th_target th = j)) as [Hj|Hj].
  - subst j. rewrite Ht in Hconn. simpl in Hconn.
    rewrite bool_decide_eq_true_2 in Hout by done. simpl in Hout.
    assert (t' = t ∧ in_open p' = false ∧ Forall (ping_of c) calls) as (-> & Hp' & Hc).
    { destruct (th_pc th); simpl in *; try done.
      - destruct Hshape as (-> & -> & ->). by rewrite Hconn.
      - by destruct Hshape as (-> & -> & [[-> _]| ->]).
      - destruct Hshape as (-> & Hs). rewrite Hconn in Hs.
        destruct Hs as (r & -> & Hp). split; [done|]. split.
        + by destruct Hp as [->|[e ->]].
        + repeat constructor. by eexists.
      - by destruct Hshape as (-> & -> & e & ->).
      - by destruct Hshape as (-> & -> & ->).
      - by destruct Hshape as (-> & -> & ->). }
    split; [|done]. split.
    + by rewrite list_insert_id, Ht.
    + apply Forall_insert; [done|]. simpl. by rewrite Hp', andb_false_r.
  - split; [|done]. split.
    + by rewrite list_lookup_insert_ne.
    + apply Forall_insert; [done|]. simpl. by rewrite bool_decide_eq_false_2.
Qed.

Lemma settled_run env sched s j c :
  settled s j c →
  settled (run env sched s) j c ∧
  Forall (ping_of c) (calls_of j (trace env sched s)).
Proof.
  revert s. induction sched as [|ev sched IH]; intros s Hs; simpl; [done|].
  destruct (settled_step env ev s j c Hs) as [Hs1 Hc1].
  destruct (IH _ Hs1) as [Hs2 Hc2]. split; [done|].
  rewrite calls_of_app. by apply Forall_app.
Qed.

Lemma at_rest_settled s j c : at_rest s → conn_of s j = Some c → settled s j c.
Proof.
  intros Hrest Hc. split; [done|]. eapply Forall_impl; [exact Hrest|].
  intros th ->. simpl. apply andb_false_r.
Qed.

Lemma sound_step env ev s : sound s → sound (pool_step env ev s).
Proof.
  intros Hs. pose proof (pool_step_kept env ev s) as Hk.
  unfold sound. apply Forall_lookup. intros k th' Hk'.
  assert (∀ th0, th_pc th0 ≠ Crashed ∧
                 (th_pc th0 = AtPing → is_Some (conn_of s (th_target th0))) →
          th_pc th0 ≠ Crashed ∧
          (th_pc th0 = AtPing → is_Some (conn_of (pool_step env ev s) (th_target th0))))
    as Hmono.
  { intros th0 [? Hp]. split; [done|]. intros ?. eapply conn_of_kept; eauto. }
  destruct (pool_step_cases env ev s)
    as [(_ & Hths & _)
       |(i & th & t & p' & t' & calls & Hth & Ht & Hshape & Hts & Hths & _)];
    rewrite Hths in Hk'.
  { apply Hmono. by eapply (Forall_lookup_1 _ _ _ _ Hs). }
  apply list_lookup_insert_Some in Hk' as [(<- & <- & _)|(Hne & Hk')];
    [|apply Hmono; by eapply (Forall_lookup_1 _ _ _ _ Hs)].
  simpl. destruct (Forall_lookup_1 _ _ _ _ Hs Hth) as [Hc Hp].
  assert (conn_of s (th_target th) = conn t) as Hconn
    by (unfold conn_of; by rewrite Ht).
  destruct (th_pc th) eqn:Hpc; simpl in Hshape.
  - destruct Hshape as (-> & -> & ->). by destruct (conn t).
  - destruct Hshape as (-> & r & -> & Hr).
    destruct r as [c|e]; [by subst p'|]. by destruct Hr as [-> | ->].
  - by destruct Hshape as (-> & -> & ->).
  - destruct Hshape as (-> & -> & [[-> Hsome]| ->]); [|done]. split; [done|].
    intros _. eapply conn_of_kept; [exact Hk|]. by rewrite Hconn.
  - destruct Hshape as (-> & Hr). specialize (Hp eq_refl). rewrite Hconn in Hp.
    destruct Hp as [c Hc']. rewrite Hc' in Hr. destruct Hr as (r & -> & [->|[e ->]]); done.
  - by destruct Hshape as (-> & -> & e & ->).
  - by destruct Hshape as (-> & -> & ->).
  - done.
Qed.

Lemma sound_run env sched s : sound s → sound (run env sched s).
Proof.
  revert s. induction sched as [|ev sched IH]; intros s Hs; simpl; [done|].
  by apply IH, sound_step.
Qed.

Lemma at_rest_sound s : at_rest s → sound s.
Proof. intros H. eapply Forall_impl; [exact H|]. by intros th ->. Qed.









Lemma at_rest_started s j : at_rest s → started s j = 0%nat.
Proof.
  unfold at_rest, started. induction 1 as [|th l Hth _ IH]; simpl; [done|].
  rewrite Hth, IH. by destruct (on_target j th).
Qed.









Lemma solo_step env ctx p t w :
  pool_step env (Run 0)
    {| p_targets := [t]; p_world := w;
       p_threads := [ {| th_target := 0; th_ctx := ctx; th_pc := p |} ] |} =
  {| p_targets := [(ping_step env ctx p t (spawn w 0)).1.2];
     p_world := (ping_step env ctx p t (spawn w 0)).2;
     p_threads := [ {| th_target := 0; th_ctx := ctx;
                       th_pc := (ping_step env ctx p t (spawn w 0)).1.1 |} ] |}.
Proof. simpl. by destruct (ping_step env ctx p t (spawn w 0)) as [[? ?] ?]. Qed.

Ltac solo_norm :=
  repeat (progress cbn || (progress unfold OpenConnection, PingDB, spawn) ||
          match goal with
          | H : ctx_Err _ _ = _ |- _ => rewrite H
          | H : conn _ = _ |- _ => rewrite H
          | H : env_PingDB _ _ _ _ = _ |- _ => rewrite H
          | H : env_OpenConnection _ _ _ _ _ = _ |- _ => rewrite H
          end).

(** The goroutine that runs alone is [ping]. *)
Lemma solo_run env ctx t w :
  run env (replicate 6 (Run 0)) (solo t w ctx) =
  {| p_targets := [(ping env ctx t (spawn w 0)).1.2];
     p_world := (ping env ctx t (spawn w 0)).2;
     p_threads := [ {| th_target := 0; th_ctx := ctx;
                       th_pc := Done (ping env ctx t (spawn w 0)).1.1 |} ] |}.
Proof.
  unfold solo. change (replicate 6 (Run 0)) with [Run 0; Run 0; Run 0; Run 0; Run 0; Run 0].
  cbn [run]. rewrite !solo_step.
  unfold ping, ping_open, ping_check.
  destruct (conn t) as [c|] eqn:Hc; solo_norm.
  - destruct (ctx_Err ctx (now w)) as [e|] eqn:He; solo_norm; [done|].
    destruct (env_PingDB env {| now := now w; history := history w; task := 1 |} ctx c)
      as [el [e|]] eqn:Hp; solo_norm; [|done].
    case_decide; solo_norm; done.
  - destruct (env_OpenConnection env {| now := now w; history := history w; task := 1 |}
                ctx (logContext t) (dsn t)) as [el [c|e]] eqn:Ho; solo_norm.
    + destruct (ctx_Err ctx (now w + Z.of_N el)) as [e|] eqn:He; solo_norm; [done|].
      match goal with |- context [env_PingDB env ?w1 ctx c] =>
        destruct (env_PingDB env w1 ctx c) as [el' [e|]] eqn:Hp end; solo_norm; [|done].
      case_decide; solo_norm; done.
    + case_decide; solo_norm; [done|].
      destruct (ctx_Err ctx (now w + Z.of_N el)) as [e'|] eqn:He; solo_norm; done.
Qed.

Lemma Forall_imap_all {A B} (P : B → Prop) (f : nat → A → B) (l : list A) :
  (∀ i x, P (f i x)) → Forall P (imap f l).
Proof.
  revert f. induction l as [|a l IH]; intros f Hf; simpl; constructor; [apply Hf|].
  apply IH. intros i x. apply Hf.
Qed.

Lemma at_rest_gathers_pool e w starts : at_rest (gathers_pool e w starts).
Proof.
  unfold at_rest, gathers_pool. simpl. induction starts as [|z starts IH]; simpl;
    [done|].
  apply Forall_app. split; [|done]. by apply Forall_imap_all.
Qed.

Lemma at_rest_opened_only env sched s :
  at_rest s →
  Forall2 opened_only (p_targets s) (p_targets (run env sched s)) ∧
  Forall (λ th, th_pc th ≠ Crashed) (p_threads (run env sched s)).
Proof.
  intros Hrest. split.
  - pose proof (run_kept env sched s) as Hk.
    apply Forall2_same_length_lookup_2; [by eapply Forall2_length|].
    intros j t t' Ht Ht'.
    destruct (Forall2_lookup_l _ _ _ _ _ Hk Ht) as (t'' & Ht'' & Hkept).
    assert (t'' = t') as -> by congruence.
    destruct (conn t) as [c|] eqn:Hc; [|by apply kept_opened_only].
    left. assert (settled s j c) as Hset.
    { apply at_rest_settled; [done|]. unfold conn_of. by rewrite Ht. }
    destruct (settled_run env sched s j c Hset) as [[Hc' _] _].
    unfold conn_of in Hc'. rewrite Ht' in Hc'. simpl in Hc'.
    destruct Hkept as [->|[c' ->]]; [done|]. simpl in Hc'.
    assert (c' = c) as -> by congruence. by apply set_conn_same.
  - pose proof (sound_run env sched s (at_rest_sound s Hrest)) as Hs.
    eapply Forall_impl; [exact Hs|]. by intros th [? _].
Qed.
End overlap_facts.

(** ** The claims *)

Section C1.
  Import Target Exporter ExporterSpec ExporterClaims Samples.

(** C1, as stated, fails: a collector sends a gauge sample and a counter
    sample under one name; [Gather] puts both into one family, of type
    GAUGE, and reports no error: nothing checks that the samples of a name
    agree on their type. *)
Lemma families_share_type_fails :
  ¬ families_share_type env_up (exporter_of [target_with [collector_mixed]]) w0.
Proof.
  intros H.
  assert (samples_share_type family_mixed) as Hshare.
  { apply (H _ _ eq_refl family_mixed). vm_compute. repeat constructor. }
  specialize (Hshare (Write gauge_m empty_dtoMetric).1
                     (Write counter_m empty_dtoMetric).1).
  discriminate Hshare.
  - by left.
  - right; by left.
Qed.

(** C1, amended: during every [Gather], every valid sample with a gauge or
    a counter payload is in the returned family that bears its name; every
    sample of a family is the written form of a channel sample of the
    family's name; the family's help text and type are those of the sample
    that created it (later samples are appended without a check); so in
    every family the samples share the family's type and help text
    whenever the channel's samples of one name agree on them. *)
Theorem Gather_families_by_name (env : Env) (e : exporter) (w : World) fams errs :
  (Gather env e w).1 = Returned (fams, errs) →
  (∀ s dm d, s ∈ Gather_chan env e w → writes s dm d →
     is_Some (Gauge dm) ∨ is_Some (Counter dm) →
     ∃ f, f ∈ fams ∧ mf_Name f = Some (Name d) ∧ dm ∈ mf_Metric f) ∧
  (∀ f, f ∈ fams → ∃ n, mf_Name f = Some n ∧
     (∀ dm, dm ∈ mf_Metric f →
        ∃ s d, s ∈ Gather_chan env e w ∧ writes s dm d ∧ Name d = n) ∧
     (∃ s d dm rest, s ∈ Gather_chan env e w ∧ writes s dm d ∧ Name d = n ∧
        mf_Help f = Some (Help d) ∧ mf_Type f = written_type dm ∧
        mf_Metric f = dm :: rest)) ∧
  (consistent (Gather_chan env e w) → ∀ f, f ∈ fams →
     (∀ dm, dm ∈ mf_Metric f → written_type dm = mf_Type f) ∧
     (∀ s dm d, s ∈ Gather_chan env e w → writes s dm d →
        mf_Name f = Some (Name d) → mf_Help f = Some (Help d))).
Proof.
  change ((Gather env e w).1) with (gather_chan (Gather_chan env e w)).
  generalize (Gather_chan env e w). intros metricChan Hret. split; [|split].
  - intros s dm d Hs Hwr Hty.
    destruct (gather_sample_placed _ _ _ _ _ _ Hret Hs Hwr) as [?|(HG & HC & _)];
      [done|].
    rewrite HG, HC in Hty. by destruct Hty as [[? ?]|[? ?]].
  - intros f Hf. destruct (gather_family_ok _ _ _ _ Hret Hf) as [n [? ? ? ?]].
    by exists n.
  - intros Hcons f Hf.
    destruct (gather_family_ok _ _ _ _ Hret Hf)
      as [n [Hname _ (s0 & d0 & dm0 & rest & Hs0 & Hw0 & Hn0 & Hhelp & Htype & _) Hfrom]].
    split.
    + intros dm Hdm. destruct (Hfrom dm Hdm) as (s & d & Hs & Hw & Hn).
      rewrite Htype.
      apply (Hcons s s0 d d0 dm dm0); auto. congruence.
    + intros s dm d Hs Hw Hnd. rewrite Hhelp. f_equal.
      apply (Hcons s0 s d0 d dm0 dm); auto. congruence.
Qed.

Lemma Gather_families_by_name_witness :
  ∃ fams errs,
    (Gather env_up (exporter_of [db1]) w0).1 = Returned (fams, errs) ∧
    consistent (Gather_chan env_up (exporter_of [db1]) w0) ∧
    ∀ f, f ∈ fams → ∀ dm, dm ∈ mf_Metric f → written_type dm = mf_Type f.
Proof.
  eexists _, _. split; [vm_compute; reflexivity|].
  assert (consistent (Gather_chan env_up (exporter_of [db1]) w0)) as Hcons.
  { intros s1 s2 d1 d2 dm1 dm2 Hs1 Hs2 [Hw1 Hd1] [Hw2 Hd2] Hn.
    eval_list_in Hs1. eval_list_in Hs2.
    elem_cases; simpl in *; simplify_eq; done. }
  split; [done|]. intros f Hf.
  apply (Gather_families_by_name env_up (exporter_of [db1]) w0 _ _ eq_refl); done.
Defined.
End C1.

Section C2.
  Import Exporter ExporterClaims Samples.

(** C2, as stated, fails: with a budget of 10s, an offset of 500ms and an
    upstream deadline 5s away, the composed deadline would be 4.5s away;
    the context [Gather] creates expires 10s after the start. *)
Lemma deadline_ignores_offset :
  ¬ deadline_composed_with_offset (exporter_of []) 0 (Some 5000000000).
Proof. unfold deadline_composed_with_offset. simpl. intros [= H]. Qed.

(** C2, amended: the context [Gather] creates has the deadline
    [start + globals.scrape_timeout], so its budget is exactly
    [scrape_timeout]; it reports no error before that instant and
    [DeadlineExceeded] from it on; [scrape_timeout_offset] plays no part:
    configurations that differ in nothing but the offset give the same
    context. *)
Theorem Gather_ctx_budget (e : exporter) (start : Z) :
  ctx_deadline (Gather_ctx e start) = Some (start + ScrapeTimeout (Globals (config e))) ∧
  (∀ t, t < start + ScrapeTimeout (Globals (config e)) ↔
        ctx_Err (Gather_ctx e start) t = None) ∧
  (∀ t, start + ScrapeTimeout (Globals (config e)) ≤ t ↔
        ctx_Err (Gather_ctx e start) t = Some DeadlineExceeded) ∧
  (∀ offset,
     Gather_ctx
       {| config :=
            {| Globals :=
                 {| MinInterval := MinInterval (Globals (config e));
                    ScrapeTimeout := ScrapeTimeout (Globals (config e));
                    ScrapeTimeoutOffset := offset;
                    MaxConnections := MaxConnections (Globals (config e)) |} |};
          targets := targets e |} start
     = Gather_ctx e start).
Proof.
  split; [done|]. split; [|split; [|done]].
  - intros t. unfold ctx_Err. simpl. case_bool_decide; split; (done || lia).
  - intros t. unfold ctx_Err. simpl. case_bool_decide; split; (done || lia).
Qed.
End C2.

Section C3.
  Import Target TargetSpec TargetClaims Exporter Overlap Samples MoreSamples.


(** It fails on "at most once" too, when scrapes overlap: two scrapes that
    both find no handle before either stores one both open one. *)
Lemma overlapping_scrapes_open_twice :
  successful_opens 0 (trace env_fresh overlapping two_scrapes) = 2%nat.
Proof. reflexivity. Qed.


End C3.

Section C4.
  Import Target TargetSpec TargetClaims Samples.

(** C4: when the probe fails, for whatever reason, [Collect] sends exactly
    three samples: one invalid-metric that carries the probe's error, [up]
    with value 0, and the scrape duration; no collector runs (nothing else
    is sent and no time passes after the probe).  When the probe succeeds,
    [Collect] sends [up] with value 1, then what all the collectors of the
    target send, each started with the context and the target's handle,
    then the scrape duration. *)
Theorem probe_decides_up (env : Env) (ctx : Context) (t : target) (w : World) :
  let '(err, t1, w1) := ping env ctx t w in
  let '(sent, t', w') := Collect env ctx t w in
  t' = t1 ∧
  match err with
  | Some e =>
      sent = [NewInvalidMetric (logContext t) e;
              NewMetric (upDesc t) (boolToFloat64 false);
              NewMetric (scrapeDurationDesc t) (seconds (time_Sub (now w1) (now w)))] ∧
      boolToFloat64 false = 0%Q ∧
      w' = w1
  | None =>
      ∃ coll,
        sent = NewMetric (upDesc t) (boolToFloat64 true) :: coll
                 ++ [NewMetric (scrapeDurationDesc t)
                       (seconds (time_Sub (now w') (now w)))] ∧
        boolToFloat64 true = 1%Q ∧
        coll ≡ₚ concat ((λ c, (collector_Collect c w1 ctx (conn t1)).2)
                          <$> collectors t)
  end.
Proof.
  pose proof (Collect_spec env ctx t w) as HC.
  pose proof (ping_fields env ctx t w) as (Hlc & _ & Hup & Hdur & Hcoll).
  destruct (ping env ctx t w) as [[err t1] w1]. simpl in *.
  destruct (Collect env ctx t w) as [[sent t'] w'].
  destruct err as [e|]; injection HC as -> -> ->.
  - rewrite Hlc, Hup, Hdur. done.
  - split; [done|]. exists (run_collectors env ctx t1 w1).1.
    rewrite Hup, Hdur. split; [done|]. split; [done|].
    rewrite (proj1 (run_collectors_spec env ctx t1 w1)).
    rewrite interleave_Permutation. unfold collector_sends. by rewrite Hcoll.
Qed.
End C4.

Section C5.
  Import Target TargetSpec TargetClaims Samples.

(** C5: for a target whose two automatic descriptors bear the names [up]
    and [scrape_duration_seconds], as [NewTarget] builds them, every
    [Collect], whatever the probe and the collectors do, sends exactly one
    sample named [up] and exactly one named [scrape_duration_seconds]
    besides what its collectors send; when the collectors send no sample
    under these two names, these are the only ones on the channel. *)
Theorem Collect_sends_one_up_one_duration
    (env : Env) (ctx : Context) (t : target) (w : World) :
  Name (upDesc t) = upMetricName →
  Name (scrapeDurationDesc t) = scrapeDurationName →
  count_named upMetricName (Collect env ctx t w).1.1 =
    (1 + count_named upMetricName (collector_samples env ctx t w))%nat ∧
  count_named scrapeDurationName (Collect env ctx t w).1.1 =
    (1 + count_named scrapeDurationName (collector_samples env ctx t w))%nat ∧
  ((∀ c w1 conn1 m,
      c ∈ collectors t → m ∈ (collector_Collect c w1 ctx conn1).2 →
      has_name upMetricName m = false ∧ has_name scrapeDurationName m = false) →
   count_named upMetricName (Collect env ctx t w).1.1 = 1%nat ∧
   count_named scrapeDurationName (Collect env ctx t w).1.1 = 1%nat).
Proof.
  intros Hup Hdur. unfold collector_samples. rewrite Collect_spec.
  pose proof (ping_fields env ctx t w) as (_ & _ & Hup1 & Hdur1 & Hcoll1).
  destruct (ping env ctx t w) as [[err t1] w1]. cbn [fst snd] in *.
  assert (∀ v, has_name upMetricName (NewMetric (upDesc t1) v) = true) as Hu1.
  { intros v. unfold has_name. simpl. by rewrite Hup1, Hup. }
  assert (∀ v, has_name scrapeDurationName (NewMetric (upDesc t1) v) = false) as Hu2.
  { intros v. unfold has_name. simpl. by rewrite Hup1, Hup. }
  assert (∀ v, has_name upMetricName (NewMetric (scrapeDurationDesc t1) v) = false) as Hd1.
  { intros v. unfold has_name. simpl. by rewrite Hdur1, Hdur. }
  assert (∀ v, has_name scrapeDurationName (NewMetric (scrapeDurationDesc t1) v) = true)
    as Hd2.
  { intros v. unfold has_name. simpl. by rewrite Hdur1, Hdur. }
  destruct err as [e|]; cbn [fst snd].
  - rewrite !count_named_cons, Hu1, Hu2, Hd1, Hd2. done.
  - rewrite (proj1 (run_collectors_spec env ctx t1 w1)).
    rewrite !count_named_cons, !count_named_app, !count_named_cons, Hu1, Hu2, Hd1, Hd2.
    rewrite !count_named_nil.
    split; [lia|]. split; [lia|]. intros Hcoll.
    assert (∀ n, n = upMetricName ∨ n = scrapeDurationName →
      count_named n (interleave (env_schedule env w1) (collector_sends ctx t1 w1)) = 0%nat)
      as Hnone.
    { intros n Hn. apply count_named_none. intros m Hm.
      apply elem_of_interleave in Hm as (q & Hq & Hm).
      unfold collector_sends in Hq. apply list_elem_of_fmap in Hq as (c & -> & Hc).
      rewrite Hcoll1 in Hc.
      destruct (Hcoll c w1 (conn t1) m Hc Hm) as [? ?]. by destruct Hn as [-> | ->]. }
    rewrite !Hnone by auto. done.
Qed.

Lemma Collect_sends_one_up_one_duration_witness :
  count_named upMetricName (Collect env_up ctx_live db1 w0).1.1 = 1%nat ∧
  count_named scrapeDurationName (Collect env_up ctx_live db1 w0).1.1 = 1%nat.
Proof.
  apply Collect_sends_one_up_one_duration; [reflexivity|reflexivity|].
  intros c w1 conn1 m Hc Hm. simpl in Hc. elem_cases; simpl in Hm; elem_cases; done.
Defined.
End C5.

Section C6.
  Import Target Exporter ExporterSpec ExporterClaims Samples.

(** C6: when the collectors send well-formed samples, [Gather] runs to the
    end of the channel and returns families and errors together; the error
    of every sample whose write failed is in the returned error list;
    every sample written successfully is in the returned family of its
    name, or was refused as neither gauge nor counter with its error in
    the list; every returned error comes from such a sample; errors and
    family samples together are as many as the samples received.  And
    there is a scrape that returns families together with a non-empty
    error list. *)
Theorem Gather_accumulates_errors :
  (∀ env e w,
     (∀ t c w1 conn1, t ∈ targets e → c ∈ collectors t →
        Forall well_formed (collector_Collect c w1 (Gather_ctx e (now w)) conn1).2) →
     ∃ fams errs,
       (Gather env e w).1 = Returned (fams, errs) ∧
       (∀ s err, s ∈ Gather_chan env e w → write_fails s err → err ∈ errs) ∧
       (∀ s dm d, s ∈ Gather_chan env e w → writes s dm d →
          (∃ f, f ∈ fams ∧ mf_Name f = Some (Name d) ∧ dm ∈ mf_Metric f) ∨
          (Gauge dm = None ∧ Counter dm = None ∧
           errDontKnowHowToHandle dm ∈ errs)) ∧
       (∀ err, err ∈ errs → error_from (Gather_chan env e w) err) ∧
       (length errs + sum_list_with (λ f, length (mf_Metric f)) fams)%nat
         = length (Gather_chan env e w)) ∧
  (∃ env e w fams errs,
     (Gather env e w).1 = Returned (fams, errs) ∧ fams ≠ [] ∧ errs ≠ []).
Proof.
  split.
  - intros env e w Hcoll.
    pose proof (Gather_chan_well_formed env e w Hcoll) as Hwf.
    change ((Gather env e w).1) with (gather_chan (Gather_chan env e w)).
    destruct (gather_chan_total _ Hwf) as (fams & errs0 & Hret).
    exists fams, errs0. split; [done|]. split; [|split; [|split]].
    + intros s err. apply (gather_write_error_kept _ _ _ _ _ Hret).
    + intros s dm d. apply (gather_sample_placed _ _ _ _ _ _ Hret).
    + intros err. apply (gather_errors_from _ _ _ _ Hret).
    + apply (gather_count _ _ _ Hret).
  - exists env_down, (exporter_of [db1; db1]), w0. eexists _, _.
    split; [vm_compute; reflexivity|done].
Qed.

Lemma Gather_accumulates_errors_witness :
  ∃ fams errs,
    (Gather env_down (exporter_of [db1; db1]) w0).1 = Returned (fams, errs) ∧
    length fams = 2%nat ∧ length errs = 2%nat.
Proof.
  destruct (proj1 Gather_accumulates_errors env_down (exporter_of [db1; db1]) w0)
    as (fams & errs & Hret & _).
  { intros t c w1 conn1 Ht Hc. simpl in Ht. elem_cases; simpl in Hc; elem_cases;
      repeat constructor; apply NewMetric_well_formed. }
  exists fams, errs. split; [done|].
  vm_compute in Hret. by injection Hret as <- <-.
Defined.
End C6.

Section C7.
  Import Target TargetSpec TargetClaims Samples.



End C7.

Section C8.
  Import Target TargetSpec TargetClaims Samples.

(** C8: what [Collect] sends is, in this order: at most one invalid-metric
    (the probe's error), the [up] sample, the samples of its collectors
    (all that the collectors send, and nothing else), and last the scrape
    duration.  So [up] comes before every collector sample and the scrape
    duration after all of them. *)
Theorem up_first_duration_last (env : Env) (ctx : Context) (t : target) (w : World) :
  (∃ pre v d,
     (Collect env ctx t w).1.1 =
       pre ++ [NewMetric (upDesc t) v] ++ collector_samples env ctx t w
           ++ [NewMetric (scrapeDurationDesc t) d] ∧
     (pre = [] ∨ ∃ e, pre = [NewInvalidMetric (logContext t) e])) ∧
  collector_samples env ctx t w
    ≡ₚ match (ping env ctx t w).1.1 with
       | Some _ => []
       | None =>
           concat (collector_sends ctx (ping env ctx t w).1.2 (ping env ctx t w).2)
       end.
Proof.
  unfold collector_samples. rewrite Collect_spec.
  pose proof (ping_fields env ctx t w) as (Hlc & _ & Hup & Hdur & _).
  destruct (ping env ctx t w) as [[[e|] t1] w1]; cbn [fst snd] in *.
  - split; [|done].
    exists [NewInvalidMetric (logContext t) e], (boolToFloat64 false).
    eexists. rewrite Hlc, Hup, Hdur. split; [done|by eauto].
  - split; [|apply interleave_Permutation].
    exists [], (boolToFloat64 true). eexists.
    rewrite Hup, Hdur, (proj1 (run_collectors_spec env ctx t1 w1)).
    split; [done|by left].
Qed.
End C8.

Section C9.
  Import Target TargetSpec TargetClaims Exporter Overlap OverlapClaims Samples
    MoreSamples.



End C9.

Section C10.
  Import Target Exporter ExporterSpec ExporterClaims Samples.

(** C10, as stated, fails: a collector sends a gauge sample and then,
    under the same name, a sample that writes an untyped value; the second
    finds the family of its name and is appended to it, and no error is
    raised. *)
Lemma untyped_sample_joins_family :
  ¬ untyped_samples_refused env_up (exporter_of [target_with [collector_untyped]]) w0.
Proof.
  intros H.
  destruct (H _ _ eq_refl untyped_m (Write untyped_m empty_dtoMetric).1
              (desc "m" "a gauge" UntypedValue)) as [Herr _]; try done.
  - vm_compute. repeat constructor.
  - vm_compute in Herr. by apply elem_of_nil in Herr.
Qed.

(** C10, amended: in every family list [Gather] returns the family names
    are pairwise distinct, every family has at least one sample and its
    type is GAUGE or COUNTER; a sample whose write fails adds its error to
    the list and leaves the families as they are, and so does a sample
    written as neither gauge nor counter when no family bears its name
    yet. *)
Theorem Gather_families_well_formed (env : Env) (e : exporter) (w : World) fams errs0 :
  (Gather env e w).1 = Returned (fams, errs0) →
  NoDup (mf_Name <$> fams) ∧
  (∀ f, f ∈ fams →
     mf_Metric f ≠ [] ∧ (mf_Type f = Some GAUGE ∨ mf_Type f = Some COUNTER)) ∧
  (∀ st x err, write_fails x err →
     gather_step st x =
     Returned {| dtoMetricFamilies := dtoMetricFamilies st;
                 errs := errs st ++ [err] |}) ∧
  (∀ st x dm d, writes x dm d → Gauge dm = None → Counter dm = None →
     dtoMetricFamilies st !! Name d = None →
     gather_step st x =
     Returned {| dtoMetricFamilies := dtoMetricFamilies st;
                 errs := errs st ++ [errDontKnowHowToHandle dm] |}).
Proof.
  change ((Gather env e w).1) with (gather_chan (Gather_chan env e w)).
  intros Hret. split; [|split; [|split]].
  - destruct (gather_chan_Returned _ _ _ Hret) as (st & Hloop & -> & _).
    apply (family_names_NoDup (Gather_chan env e w)), gather_loop_inv, Hloop.
  - intros f Hf.
    destruct (gather_family_ok _ _ _ _ Hret Hf)
      as [n [_ Hty (_ & _ & dm & rest & _ & _ & _ & _ & _ & Hm) _]].
    split; [by rewrite Hm|done].
  - intros st x err [dm HW]. unfold gather_step. by rewrite HW.
  - intros st x dm d [HW HD] HG HC Hnone. unfold gather_step.
    by rewrite HW, HD, Hnone, HG, HC.
Qed.

Lemma Gather_families_well_formed_witness :
  ∃ fams errs0,
    (Gather env_up (exporter_of [db1; target_with [collector_mixed]]) w0).1
      = Returned (fams, errs0) ∧
    NoDup (mf_Name <$> fams) ∧
    ∀ f, f ∈ fams → mf_Metric f ≠ [].
Proof.
  eexists _, _. split; [vm_compute; reflexivity|].
  pose proof (Gather_families_well_formed env_up
                (exporter_of [db1; target_with [collector_mixed]]) w0 _ _ eq_refl)
    as (H1 & H2 & _).
  split; [exact H1|]. intros f Hf. by apply H2.
Defined.
End C10.

(** ** More about [NewTarget] *)

Section NewTarget_more.
  Import Target NewTargetSpec.
  Context {CollectorConfig : Type}.
  Variable NewCollector :
    string → CollectorConfig → list LabelPair → Collector + error.
  Variable quote : string → string.

(** The order of strings is transitive. *)
Lemma String_leb_trans a b c :
  String.leb a b = true → String.leb b c = true → String.leb a c = true.
Proof.
  unfold String.leb. revert b c.
  induction a as [|x a IH]; intros [|y b] [|z c]; simpl; try done.
  unfold Ascii.compare.
  destruct (N.compare_spec (Ascii.N_of_ascii x) (Ascii.N_of_ascii y)) as [Hxy|Hxy|Hxy],
    (N.compare_spec (Ascii.N_of_ascii y) (Ascii.N_of_ascii z)) as [Hyz|Hyz|Hyz];
    try done; intros H1 H2;
    destruct (N.compare_spec (Ascii.N_of_ascii x) (Ascii.N_of_ascii z));
    try done; try lia.
  by apply (IH b c).
Qed.

Global Instance LabelPair_le_trans : Transitive LabelPair_le.
Proof. intros a b c. apply String_leb_trans. Qed.

Global Instance LabelPair_le_total : Total LabelPair_le.
Proof. intros a b. apply String.leb_total. Qed.

Lemma new_collectors_inl lc ps ccs cs :
  new_collectors NewCollector lc ps ccs = inl cs ↔
  Forall2 (λ cc c, NewCollector lc cc ps = inl c) ccs cs.
Proof.
  revert cs. induction ccs as [|cc ccs IH]; intros cs; simpl.
  - split; [by intros [= <-]; constructor|by inversion 1].
  - destruct (NewCollector lc cc ps) as [c|e] eqn:Hc.
    + destruct (new_collectors NewCollector lc ps ccs) as [cs'|e] eqn:Hcs.
      * split.
        -- intros [= <-]. constructor; [done|]. by apply IH.
        -- inversion 1 as [|? c' ? cs'' Hc' Hcs']; subst.
           rewrite Hc in Hc'. apply IH in Hcs'. by simplify_eq.
      * split; [done|]. inversion 1 as [|? c' ? cs'' Hc' Hcs']; subst.
        by apply IH in Hcs'.
    + split; [done|]. inversion 1 as [|? c' ? cs'' Hc' Hcs']; subst.
      by rewrite Hc in Hc'.
Qed.

Lemma new_collectors_inr lc ps ccs err :
  new_collectors NewCollector lc ps ccs = inr err ↔
  ∃ pre cc post cs,
    ccs = pre ++ cc :: post ∧
    Forall2 (λ cc c, NewCollector lc cc ps = inl c) pre cs ∧
    NewCollector lc cc ps = inr err.
Proof.
  induction ccs as [|cc ccs IH]; simpl.
  - split; [done|]. by intros ([|??] & ? & ? & ? & ? & _).
  - destruct (NewCollector lc cc ps) as [c|e] eqn:Hc.
    + destruct (new_collectors NewCollector lc ps ccs) as [cs'|e] eqn:Hcs.
      * split; [done|]. intros (pre & cc' & post & cs & Heq & Hpre & Hcc).
        destruct pre as [|p pre]; simplify_eq/=; [congruence|].
        inversion Hpre; subst.
        assert (inl cs' = @inr (list Collector) error err); [|done].
        apply IH. by eexists pre, cc', post, _.
      * split.
        -- intros [= ->]. destruct (proj1 IH eq_refl)
             as (pre & cc' & post & cs & -> & Hpre & Hcc).
           exists (cc :: pre), cc', post, (c :: cs). by repeat constructor.
        -- intros (pre & cc' & post & cs & Heq & Hpre & Hcc).
           destruct pre as [|p pre]; simplify_eq/=; [congruence|].
           inversion Hpre; subst. f_equal.
           assert (@inr (list Collector) error e = inr err) as [= ->]; [|done].
           apply IH. by eexists pre, cc', post, _.
    + split.
      * intros [= ->]. by exists [], cc, ccs, [].
      * intros (pre & cc' & post & cs & Heq & Hpre & Hcc).
        destruct pre as [|p pre]; simplify_eq/=; [congruence|].
        inversion Hpre; subst. congruence.
Qed.

Lemma NewTarget_unfold lc n d ccs labels :
  NewTarget NewCollector quote lc n d ccs labels =
  match new_collectors NewCollector (target_logContext quote lc n)
          (sorted_pairs (map_to_list labels)) ccs with
  | inr err => inr err
  | inl cs =>
      inl {| name := n; dsn := d; collectors := cs; constLabels := labels;
             upDesc :=
               NewAutomaticMetricDesc (target_logContext quote lc n) upMetricName
                 upMetricHelp GaugeValue (sorted_pairs (map_to_list labels));
             scrapeDurationDesc :=
               NewAutomaticMetricDesc (target_logContext quote lc n)
                 scrapeDurationName scrapeDurationHelp GaugeValue
                 (sorted_pairs (map_to_list labels));
             logContext := target_logContext quote lc n; conn := None |}
  end.
Proof. done. Qed.

(** X1: [NewTarget] fails exactly when [NewCollector] fails for one of the
    collector configurations, and the error it returns is that of the
    first configuration that fails: all the configurations before it were
    accepted. *)
Theorem NewTarget_fails_with_first_error lc n d ccs labels err :
  NewTarget NewCollector quote lc n d ccs labels = inr err ↔
  ∃ pre cc post cs,
    ccs = pre ++ cc :: post ∧
    Forall2 (λ cc c, NewCollector (target_logContext quote lc n) cc
                       (sorted_pairs (map_to_list labels)) = inl c) pre cs ∧
    NewCollector (target_logContext quote lc n) cc
      (sorted_pairs (map_to_list labels)) = inr err.
Proof.
  rewrite NewTarget_unfold, <- new_collectors_inr.
  destruct (new_collectors _ _ _ _) as [cs|e]; split; congruence.
Qed.

(** X2: when [NewTarget] succeeds, the target has one collector per
    configuration, in the order of the configurations, each built by
    [NewCollector] with the target's log context and the target's constant
    label pairs; the target has no connection yet, and its two automatic
    descriptors are gauges that carry the same log context and the same
    label pairs as the collectors. *)
Theorem NewTarget_builds_collectors_in_order lc n d ccs labels t :
  NewTarget NewCollector quote lc n d ccs labels = inl t →
  Forall2 (λ cc c, NewCollector (logContext t) cc (ConstLabels (upDesc t)) = inl c)
    ccs (collectors t) ∧
  length (collectors t) = length ccs ∧
  conn t = None ∧ name t = n ∧ dsn t = d ∧ constLabels t = labels ∧
  logContext t = target_logContext quote lc n ∧
  desc_LogContext (upDesc t) = logContext t ∧
  desc_LogContext (scrapeDurationDesc t) = logContext t ∧
  ConstLabels (scrapeDurationDesc t) = ConstLabels (upDesc t) ∧
  Labels (upDesc t) = [] ∧ Labels (scrapeDurationDesc t) = [].
Proof.
  rewrite NewTarget_unfold.
  destruct (new_collectors _ _ _ _) as [cs|e] eqn:Hcs; [|done].
  intros [= <-]. simpl. apply new_collectors_inl in Hcs.
  split; [done|]. split; [|done]. symmetry. by eapply Forall2_length.
Qed.

(** X3: the constant label pairs that [NewTarget] gives to the descriptors
    are sorted by label name, have pairwise different names, and are
    exactly the entries of the label map; they are the same in whatever
    order the loop over the map visits the entries. *)
Theorem NewTarget_constant_labels_sorted lc n d ccs labels t :
  NewTarget NewCollector quote lc n d ccs labels = inl t →
  StronglySorted LabelPair_le (ConstLabels (upDesc t)) ∧
  NoDup (lp_Name <$> ConstLabels (upDesc t)) ∧
  (∀ k v, {| lp_Name := k; lp_Value := v |} ∈ ConstLabels (upDesc t) ↔
          labels !! k = Some v) ∧
  (∀ entries, entries ≡ₚ map_to_list labels →
     sorted_pairs entries = ConstLabels (upDesc t)).
Proof.
  rewrite NewTarget_unfold.
  destruct (new_collectors _ _ _ _) as [cs|e]; [|done]. intros [= <-]. simpl.
  assert (∀ k v, {| lp_Name := k; lp_Value := v |} ∈ to_LabelPair <$> map_to_list labels
                 ↔ labels !! k = Some v) as Hin.
  { intros k v. rewrite list_elem_of_fmap. split.
    - intros ([k' v'] & [= -> ->] & Hkv). by apply elem_of_map_to_list.
    - intros Hkv. exists (k, v). split; [done|]. by apply elem_of_map_to_list. }
  split; [apply StronglySorted_merge_sort; apply _|]. split; [|split].
  - unfold sorted_pairs. rewrite merge_sort_Permutation, <- list_fmap_compose.
    apply (NoDup_fst_map_to_list labels).
  - intros k v. unfold sorted_pairs. by rewrite merge_sort_Permutation.
  - intros entries Hperm. unfold sorted_pairs.
    apply (Sorted_unique_strong LabelPair_le).
    + intros [k1 v1] [k2 v2] H1 H2 Hle1 Hle2.
      rewrite merge_sort_Permutation, Hperm in H1.
      rewrite merge_sort_Permutation in H2.
      apply Hin in H1. apply Hin in H2.
      assert (k1 = k2) as -> by (by apply String.leb_antisym).
      congruence.
    + apply Sorted_merge_sort; apply _.
    + apply Sorted_merge_sort; apply _.
    + by rewrite !merge_sort_Permutation, Hperm.
Qed.
End NewTarget_more.

Section NewTarget_samples.
  Import Target NewTargetSpec Samples MoreSamples.

Lemma NewTarget_fails_with_first_error_witness :
  NewTarget NewCollector_mk quote_plain "job=mssql" "db1" "sqlserver://db1"
    ["m"; "x"; "k"; "y"] labels_env_dc
  = inr (errorString "unknown collector x").
Proof.
  apply (proj2 (NewTarget_fails_with_first_error NewCollector_mk quote_plain
                  "job=mssql" "db1" "sqlserver://db1" ["m"; "x"; "k"; "y"]
                  labels_env_dc (errorString "unknown collector x"))).
  exists ["m"], "x", ["k"; "y"], [collector_m].
  split; [reflexivity|]. split; [|reflexivity].
  constructor; [reflexivity|constructor].
Defined.

Lemma NewTarget_builds_collectors_in_order_witness :
  collectors target_mk = [collector_m; collector_k] ∧
  Forall2 (λ cc c, NewCollector_mk (logContext target_mk) cc
                     (ConstLabels (upDesc target_mk)) = inl c)
    ["m"; "k"] (collectors target_mk) ∧
  conn target_mk = None.
Proof.
  split; [reflexivity|].
  destruct (NewTarget_builds_collectors_in_order NewCollector_mk quote_plain
              "job=mssql" "db1" "sqlserver://db1" ["m"; "k"] labels_env_dc
              target_mk) as (Hcs & _ & Hconn & _).
  - vm_compute. reflexivity.
  - split; [exact Hcs|exact Hconn].
Defined.

Lemma NewTarget_constant_labels_sorted_witness :
  ConstLabels (upDesc target_mk) = pairs_dc_env ∧
  StronglySorted LabelPair_le (ConstLabels (upDesc target_mk)) ∧
  sorted_pairs [("env", "prod"); ("dc", "eu")] = ConstLabels (upDesc target_mk) ∧
  sorted_pairs [("dc", "eu"); ("env", "prod")] = ConstLabels (upDesc target_mk).
Proof.
  split; [reflexivity|].
  destruct (NewTarget_constant_labels_sorted NewCollector_mk quote_plain
              "job=mssql" "db1" "sqlserver://db1" ["m"; "k"] labels_env_dc
              target_mk) as (Hsorted & _ & _ & Horder).
  - vm_compute. reflexivity.
  - split; [exact Hsorted|]. split; apply Horder.
    + assert (map_to_list labels_env_dc ≡ₚ [("env", "prod"); ("dc", "eu")]) as ->;
        [|done].
      unfold labels_env_dc. rewrite map_to_list_insert by done.
      by rewrite map_to_list_insert, map_to_list_empty by done.
    + assert (map_to_list labels_env_dc ≡ₚ [("env", "prod"); ("dc", "eu")]) as ->;
        [|apply Permutation_swap].
      unfold labels_env_dc. rewrite map_to_list_insert by done.
      by rewrite map_to_list_insert, map_to_list_empty by done.
Defined.
End NewTarget_samples.

(** ** [NewExporter] *)

Section NewExporter_facts.
  Import Target Exporter ExporterNew.
  Context {JobConfig Job Gatherer : Type}.
  Variable Load : string → Config + error.
  Variable Jobs : Config → list JobConfig.
  Variable NewJob : JobConfig → Job + error.
  Variable Targets : Job → list target.

Lemma new_jobs_inl jcs jobs0 targets0 jobs ts :
  new_jobs NewJob Targets jcs jobs0 targets0 = inl (jobs, ts) ↔
  ∃ js, Forall2 (λ jc j, NewJob jc = inl j) jcs js ∧
        jobs = jobs0 ++ js ∧ ts = targets0 ++ concat (Targets <$> js).
Proof.
  revert jobs0 targets0. induction jcs as [|jc jcs IH]; intros jobs0 targets0; simpl.
  - split.
    + intros [= <- <-]. exists []. by rewrite !app_nil_r.
    + intros (js & Hjs & -> & ->). inversion Hjs. by rewrite !app_nil_r.
  - destruct (NewJob jc) as [j|e] eqn:Hj.
    + rewrite IH. split.
      * intros (js & Hjs & -> & ->). exists (j :: js).
        split; [by constructor|]. simpl. by rewrite <- !app_assoc.
      * intros (js & Hjs & -> & ->).
        inversion Hjs as [|? j' ? js' Hj' Hjs']; subst.
        assert (j' = j) as -> by congruence.
        exists js'. split; [done|]. simpl. by rewrite <- !app_assoc.
    + split; [done|]. intros (js & Hjs & _).
      inversion Hjs as [|? j' ? js' Hj' Hjs']; subst. congruence.
Qed.

Lemma new_jobs_inr jcs jobs0 targets0 err :
  new_jobs NewJob Targets jcs jobs0 targets0 = inr err ↔
  ∃ pre jc post js,
    jcs = pre ++ jc :: post ∧
    Forall2 (λ jc j, NewJob jc = inl j) pre js ∧ NewJob jc = inr err.
Proof.
  revert jobs0 targets0. induction jcs as [|jc jcs IH]; intros jobs0 targets0; simpl.
  - split; [done|]. by intros ([|??] & ? & ? & ? & ? & _).
  - destruct (NewJob jc) as [j|e] eqn:Hj.
    + rewrite IH. split.
      * intros (pre & jc' & post & js & -> & Hpre & Hjc).
        exists (jc :: pre), jc', post, (j :: js). by repeat constructor.
      * intros (pre & jc' & post & js & Heq & Hpre & Hjc).
        destruct pre as [|p pre]; simplify_eq/=; [congruence|].
        inversion Hpre; subst. by eexists pre, jc', post, _.
    + split.
      * intros [= ->]. by exists [], jc, jcs, [].
      * intros (pre & jc' & post & js & Heq & Hpre & Hjc).
        destruct pre as [|p pre]; simplify_eq/=; [congruence|].
        inversion Hpre; subst. congruence.
Qed.

(** X4: [NewExporter] succeeds exactly when the configuration loads and
    [NewJob] accepts every job of it; the exporter then holds the loaded
    configuration (which [Config] gives back), one job per job
    configuration in their order, the default gatherer it was given, and
    as targets the targets of all the jobs, job after job, none left out
    and none twice. *)
Theorem NewExporter_collects_all_targets configFile g
    (e : @exporter_struct Job Gatherer) :
  NewExporter Load Jobs NewJob Targets configFile g = inl e ↔
  ∃ c, Load configFile = inl c ∧
       exporter_Config e = c ∧
       Forall2 (λ jc j, NewJob jc = inl j) (Jobs c) (exp_jobs e) ∧
       targets (exp_core e) = concat (Targets <$> exp_jobs e) ∧
       exp_defaultGatherer e = g.
Proof.
  unfold NewExporter, exporter_Config. destruct (Load configFile) as [c|err].
  - destruct (new_jobs NewJob Targets (Jobs c) [] []) as [[jobs ts]|err] eqn:Hnj.
    + apply new_jobs_inl in Hnj as (js & Hjs & -> & ->). simpl. split.
      * intros [= <-]. by exists c.
      * intros (c' & [= <-] & Hc & Hjobs & Hts & Hg).
        destruct e as [[c0 ts0] js0 g0]. simpl in *. subst.
        assert (js0 = js) as ->; [|done].
        revert js0 Hjobs. induction Hjs as [|jc j jcs js Hj _ IH];
          intros js0; inversion 1 as [|? j' ? js' Hj' Hjs']; subst; [done|].
        f_equal; [congruence|by apply IH].
    + split; [done|]. intros (c' & [= <-] & _ & Hjobs & _).
      assert (inr err = @inl (list Job * list target) error
                          ([] ++ exp_jobs e, [] ++ concat (Targets <$> exp_jobs e)));
        [|done].
      rewrite <- Hnj. apply new_jobs_inl. by eexists.
  - split; [done|]. by intros (c' & ? & _).
Qed.

(** X5: [NewExporter] fails exactly when the configuration does not load,
    with the error of the loader, or when it loads and [NewJob] rejects one
    of its jobs, with the error of the first job rejected. *)
Theorem NewExporter_fails_with_first_error configFile (g : Gatherer) err :
  NewExporter Load Jobs NewJob Targets configFile g = inr err ↔
  Load configFile = inr err ∨
  ∃ c pre jc post js,
    Load configFile = inl c ∧ Jobs c = pre ++ jc :: post ∧
    Forall2 (λ jc j, NewJob jc = inl j) pre js ∧ NewJob jc = inr err.
Proof.
  unfold NewExporter. destruct (Load configFile) as [c|e0].
  - destruct (new_jobs NewJob Targets (Jobs c) [] []) as [[jobs ts]|e1] eqn:Hnj.
    + split; [done|]. intros [?|(c' & pre & jc & post & js & [= <-] & H)]; [done|].
      assert (@inl (list Job * list target) error (jobs, ts) = inr err); [|done].
      rewrite <- Hnj. apply new_jobs_inr. by exists pre, jc, post, js.
    + split.
      * intros [= ->]. right. apply new_jobs_inr in Hnj
          as (pre & jc & post & js & ? & ? & ?). by exists c, pre, jc, post, js.
      * intros [?|(c' & pre & jc & post & js & [= <-] & H)]; [done|].
        f_equal. assert (@inr (list Job * list target) error e1 = inr err) as [= ->];
          [|done].
        rewrite <- Hnj. apply new_jobs_inr. by exists pre, jc, post, js.
  - split; [by intros [= ->]; left|].
    intros [[= ->]|(c' & ? & ? & ? & ? & ? & _)]; done.
Qed.
End NewExporter_facts.

Section NewExporter_samples.
  Import Target Exporter ExporterNew Samples MoreSamples.

Lemma NewExporter_collects_all_targets_witness :
  NewExporter Load_sample Jobs_sample NewJob_sample id "sql_exporter.yml" ()
  = inl exporter_sample.
Proof.
  apply (proj2 (NewExporter_collects_all_targets Load_sample Jobs_sample
                  NewJob_sample id "sql_exporter.yml" () exporter_sample)).
  exists {| Globals := globals |}.
  split; [reflexivity|]. split; [reflexivity|]. split; [|split; reflexivity].
  constructor; [reflexivity|]. constructor; [reflexivity|constructor].
Defined.

Lemma NewExporter_fails_with_first_error_witness :
  NewExporter Load_sample Jobs_sample NewJob_sample id "none.yml" ()
  = inr (errorString "no such file") ∧
  NewExporter Load_sample Jobs_sample NewJob_sample id "bad_jobs.yml" ()
  = inr (errorString "job without targets").
Proof.
  split.
  - apply (proj2 (NewExporter_fails_with_first_error Load_sample Jobs_sample
                    NewJob_sample id "none.yml" () (errorString "no such file"))).
    left. reflexivity.
  - apply (proj2 (NewExporter_fails_with_first_error Load_sample Jobs_sample
                    NewJob_sample id "bad_jobs.yml" ()
                    (errorString "job without targets"))).
    right. exists {| Globals := globals_bad |}, [["db1"]], [], [["db2"]], [[db1]].
    split; [reflexivity|]. split; [reflexivity|]. split; [|reflexivity].
    constructor; [reflexivity|constructor].
Defined.
End NewExporter_samples.

(** ** The families and the errors of [Gather], from the channel *)

Section gather_ref_facts.
  Import Target Exporter ExporterSpec GatherRef.
  Implicit Types (st : gather_state) (l : list Metric) (s x : Metric) (n : string).

Lemma drop_refused_snoc (a : list (MetricDesc * dtoMetric)) d dm :
  drop_refused (a ++ [(d, dm)]) =
  match drop_refused a with
  | [] => if neither dm then [] else [(d, dm)]
  | _ :: _ => drop_refused a ++ [(d, dm)]
  end.
Proof.
  induction a as [|[d0 dm0] a IH]; simpl; [done|].
  destruct (neither dm0); [done|]. done.
Qed.

Lemma family_of_snoc_other n l x :
  valid_named n x = None → family_of n (l ++ [x]) = family_of n l.
Proof.
  intros Hx. unfold family_of, written_named. rewrite omap_app. simpl.
  by rewrite Hx, app_nil_r.
Qed.

Lemma family_of_snoc_append n l x d dm f :
  valid_named n x = Some (d, dm) → family_of n l = Some f →
  family_of n (l ++ [x]) = Some (append_Metric f dm).
Proof.
  intros Hx. unfold family_of, written_named. rewrite omap_app. simpl.
  rewrite Hx. simpl. rewrite drop_refused_snoc.
  destruct (drop_refused (omap (valid_named n) l)) as [|[d0 dm0] rest]; [done|].
  intros [= <-]. simpl. unfold append_Metric. simpl. by rewrite fmap_app.
Qed.

Lemma family_of_snoc_new n l x d dm :
  valid_named n x = Some (d, dm) → family_of n l = None →
  family_of n (l ++ [x]) =
  if neither dm then None
  else Some {| mf_Name := Some n; mf_Help := Some (Help d);
               mf_Type := Some (if Gauge dm is Some _ then GAUGE else COUNTER);
               mf_Metric := [dm] |}.
Proof.
  intros Hx. unfold family_of, written_named. rewrite omap_app. simpl.
  rewrite Hx. simpl. rewrite drop_refused_snoc.
  destruct (drop_refused (omap (valid_named n) l)) as [|[d0 dm0] rest]; [|done].
  intros _. by destruct (neither dm).
Qed.


(** One step of the loop keeps the map equal to [family_of], and adds the
    error [sample_error] names. *)
Lemma gather_step_ref l st x st' :
  (∀ n, dtoMetricFamilies st !! n = family_of n l) →
  gather_step st x = Returned st' →
  (∀ n, dtoMetricFamilies st' !! n = family_of n (l ++ [x])) ∧
  errs st' = errs st ++ option_list (sample_error l x).
Proof.
  intros Hinv. unfold gather_step, sample_error.
  destruct (Write x empty_dtoMetric) as [dm [e|]] eqn:HW.
  { intros [= <-]. simpl. split; [|done]. intros n.
    rewrite family_of_snoc_other; [done|]. unfold valid_named. by rewrite HW. }
  destruct (Desc x) as [d|] eqn:HD; [|done].
  assert (∀ n, n ≠ Name d → valid_named n x = None) as Hother.
  { intros n Hn. unfold valid_named. rewrite HW, HD. by case_decide. }
  assert (valid_named (Name d) x = Some (d, dm)) as Hsame.
  { unfold valid_named. rewrite HW, HD. by case_decide. }
  pose proof (Hinv (Name d)) as Hd.
  destruct (dtoMetricFamilies st !! Name d) as [f|] eqn:Hf.
  { intros [= <-]. simpl. split.
    - intros n. destruct (decide (n = Name d)) as [->|Hn].
      + rewrite lookup_insert_eq. symmetry. by eapply family_of_snoc_append.
      + rewrite lookup_insert_ne by done.
        by rewrite family_of_snoc_other by auto.
    - rewrite <- Hd. destruct (neither dm); by rewrite app_nil_r. }
  rewrite <- Hd.
  assert (∀ f, family_of (Name d) (l ++ [x]) = Some f →
     ∀ n, <[Name d:=f]> (dtoMetricFamilies st) !! n = family_of n (l ++ [x])) as Hnew.
  { intros f Hfam n. destruct (decide (n = Name d)) as [->|Hn].
    - by rewrite lookup_insert_eq.
    - rewrite lookup_insert_ne by done. by rewrite family_of_snoc_other by auto. }
  pose proof (family_of_snoc_new _ _ _ _ _ Hsame (eq_sym Hd)) as Hsnoc.
  unfold neither in *.
  destruct (Gauge dm) as [g|] eqn:HG; [|destruct (Counter dm) as [c|] eqn:HC].
  - intros [= <-]. simpl. split; [|by rewrite app_nil_r]. by apply Hnew.
  - intros [= <-]. simpl. split; [|by rewrite app_nil_r]. by apply Hnew.
  - intros [= <-]. simpl. split; [|done]. intros n.
    destruct (decide (n = Name d)) as [->|Hn]; [by rewrite Hsnoc|].
    by rewrite family_of_snoc_other by auto.
Qed.

Lemma gather_loop_ref before st0 l st :
  (∀ n, dtoMetricFamilies st0 !! n = family_of n before) →
  gather_loop st0 l = Returned st →
  (∀ n, dtoMetricFamilies st !! n = family_of n (before ++ l)) ∧
  errs st = errs st0 ++ errors_of before l.
Proof.
  revert before st0. induction l as [|x l IH]; intros before st0 Hinv; simpl.
  - intros [= <-]. by rewrite !app_nil_r.
  - destruct (gather_step st0 x) as [st1|] eqn:Hstep; [|done]. simpl.
    destruct (gather_step_ref _ _ _ _ Hinv Hstep) as [Hinv1 Herr1].
    intros Hloop. destruct (IH _ _ Hinv1 Hloop) as [Hfam Herr].
    rewrite <- app_assoc in Hfam. split; [done|].
    by rewrite Herr, Herr1, <- app_assoc.
Qed.

Lemma family_of_nil n : family_of n [] = None.
Proof. done. Qed.

(** X6: the families [Gather] returns are told by the channel alone.  For
    every metric name, the returned list has a family of that name exactly
    when the channel has a valid sample of that name with a gauge or a
    counter payload; the family then holds, in the order of arrival, the
    written forms of all the valid samples of that name from the first
    such sample on, and has the help text and the type of that first
    sample. *)
Theorem Gather_families_in_channel_order (env : Env) (e : exporter) (w : World)
    fams errs0 :
  (Gather env e w).1 = Returned (fams, errs0) →
  ∀ f, f ∈ fams ↔ ∃ n, family_of n (Gather_chan env e w) = Some f.
Proof.
  change ((Gather env e w).1) with (gather_chan (Gather_chan env e w)).
  intros (st & Hloop & -> & _)%gather_chan_Returned f.
  destruct (gather_loop_ref [] gather_init _ _ (λ n, lookup_empty n) Hloop)
    as [Hfam _].
  rewrite elem_of_families. by setoid_rewrite Hfam.
Qed.

(** X7: the error list [Gather] returns is told by the channel alone, and
    is in the order of arrival: every sample whose write fails gives its
    error, every sample written as neither gauge nor counter that arrives
    before any gauge or counter sample of its name gives the error "don't
    know how to handle metric", and no other sample gives an error. *)
Theorem Gather_errors_in_channel_order (env : Env) (e : exporter) (w : World)
    fams errs0 :
  (Gather env e w).1 = Returned (fams, errs0) →
  errs0 = errors_of [] (Gather_chan env e w).
Proof.
  change ((Gather env e w).1) with (gather_chan (Gather_chan env e w)).
  intros (st & Hloop & _ & ->)%gather_chan_Returned.
  by destruct (gather_loop_ref [] gather_init _ _ (λ n, lookup_empty n) Hloop)
    as [_ ->].
Qed.

Lemma gather_loop_panics st l :
  gather_loop st l = Panicked ↔ ∃ s, s ∈ l ∧ nil_descriptor s.
Proof.
  revert st. induction l as [|x l IH]; intros st; simpl.
  - split; [done|]. by intros (s & ?%elem_of_nil & _).
  - destruct (gather_step st x) as [st'|] eqn:Hstep; simpl.
    + rewrite IH. split.
      * intros (s & Hs & Hnil). exists s. split; [by right|done].
      * intros (s & [->|Hs]%elem_of_cons & Hnil); [|by eauto].
        destruct Hnil as (dm & HW & HD). unfold gather_step in Hstep.
        by rewrite HW, HD in Hstep.
    + split; [|done]. intros _. exists x. split; [by left|].
      unfold gather_step in Hstep.
      destruct (Write x empty_dtoMetric) as [dm [err|]] eqn:HW; [done|].
      destruct (Desc x) as [d|] eqn:HD; [|by exists dm].
      destruct (dtoMetricFamilies st !! Name d); [done|].
      by destruct (Gauge dm), (Counter dm).
Qed.

(** X8: [Gather] panics exactly when the channel delivers a sample that is
    written without error and has no descriptor; in every other case it
    returns, whatever errors the samples carry. *)
Theorem Gather_panics_on_nil_descriptor (env : Env) (e : exporter) (w : World) :
  ((Gather env e w).1 = Panicked ↔
   ∃ s, s ∈ Gather_chan env e w ∧ nil_descriptor s) ∧
  ((∃ fams errs0, (Gather env e w).1 = Returned (fams, errs0)) ↔
   ∀ s, s ∈ Gather_chan env e w → ¬ nil_descriptor s).
Proof.
  change ((Gather env e w).1) with (gather_chan (Gather_chan env e w)).
  unfold gather_chan.
  pose proof (gather_loop_panics gather_init (Gather_chan env e w)) as Hp.
  destruct (gather_loop gather_init (Gather_chan env e w)) as [st|]; simpl; split.
  - split; [done|]. intros H. by apply Hp in H.
  - split; [|by eauto]. intros _ s Hs Hnil.
    assert (Returned st = Panicked) as H; [|done]. apply Hp. eauto.
  - split; [|done]. intros _. by apply Hp.
  - split; [by intros (? & ? & ?)|]. intros H.
    destruct (proj1 Hp eq_refl) as (s & Hs & Hnil). by destruct (H s Hs).
Qed.

Lemma Gather_families_in_channel_order_witness :
  ∃ fams errs0,
    (Gather Samples.env_up
       (Samples.exporter_of [Samples.target_with [Samples.collector_untyped]])
       Samples.w0).1 = Returned (fams, errs0) ∧
    length fams = 3%nat ∧
    ∀ f, f ∈ fams ↔
      ∃ n, family_of n
             (Gather_chan Samples.env_up
                (Samples.exporter_of [Samples.target_with [Samples.collector_untyped]])
                Samples.w0) = Some f.
Proof.
  eexists _, _. split; [vm_compute; reflexivity|]. split; [reflexivity|].
  apply (Gather_families_in_channel_order Samples.env_up
           (Samples.exporter_of [Samples.target_with [Samples.collector_untyped]])
           Samples.w0 _ _ eq_refl).
Defined.

Lemma Gather_errors_in_channel_order_witness :
  ∃ fams errs0,
    (Gather Samples.env_down (Samples.exporter_of [Samples.db1; Samples.db1])
       Samples.w0).1 = Returned (fams, errs0) ∧
    length errs0 = 2%nat ∧
    errs0 = errors_of []
              (Gather_chan Samples.env_down
                 (Samples.exporter_of [Samples.db1; Samples.db1]) Samples.w0).
Proof.
  eexists _, _. split; [vm_compute; reflexivity|]. split; [reflexivity|].
  apply (Gather_errors_in_channel_order Samples.env_down
           (Samples.exporter_of [Samples.db1; Samples.db1]) Samples.w0 _ _ eq_refl).
Defined.
End gather_ref_facts.

(** ** More about the probe and the scrape of a target *)

Section target_more.
  Import Target TargetSpec.
  Implicit Types (env : Env) (ctx : Context) (t : target) (w : World).

Lemma ping_handle_calls env ctx c w :
  ∃ calls,
    history (ping_handle env ctx c w).2 = history w ++ calls ∧
    match (ping_handle env ctx c w).1 with
    | None =>
        last calls = Some (CallPingDB c None) ∧
        ctx_Err ctx (now (ping_handle env ctx c w).2) = None
    | Some e =>
        last calls = Some (CallPingDB c (Some e)) ∨
        ctx_Err ctx (now (ping_handle env ctx c w).2) = Some e
    end.
Proof.
  unfold ping_handle, PingDB. destruct (ctx_Err ctx (now w)) as [e|] eqn:He; simpl.
  { exists []. rewrite app_nil_r. split; [done|by right]. }
  destruct (env_PingDB env w ctx c) as [el [e|]]; simpl.
  - eexists. split; [done|by left].
  - eexists. split; [done|].
    destruct (ctx_Err ctx (now w + Z.of_N el)) as [e|] eqn:He'; [by right|done].
Qed.


(** X10: the probe makes up no error: an error [ping] returns is the error
    of the last driver call of the probe ([OpenConnection] or [PingDB]), or
    it is the error of the context at the time the probe returns. *)
Theorem ping_error_comes_from_driver_or_context env ctx t w e :
  (ping env ctx t w).1.1 = Some e →
  ∃ calls,
    history (ping env ctx t w).2 = history w ++ calls ∧
    (last calls = Some (CallOpenConnection (logContext t) (dsn t) (inr e)) ∨
     (∃ c, last calls = Some (CallPingDB c (Some e))) ∨
     ctx_Err ctx (now (ping env ctx t w).2) = Some e).
Proof.
  destruct (conn t) as [c|] eqn:Hc.
  - rewrite (ping_with_handle _ _ _ _ _ Hc). simpl. intros Herr.
    destruct (ping_handle_calls env ctx c w) as (calls & Hh & Hlast).
    rewrite Herr in Hlast. exists calls. split; [done|]. right.
    destruct Hlast; [left; by exists c|by right].
  - rewrite (ping_without_handle _ _ _ _ Hc).
    pose proof (OpenConnection_world env ctx (logContext t) (dsn t) w) as (_ & Hh1 & _).
    destruct (OpenConnection env ctx (logContext t) (dsn t) w) as [[c|e0] w1];
      simpl in *.
    + intros Herr. destruct (ping_handle_calls env ctx c w1) as (calls & Hh & Hlast).
      rewrite Herr in Hlast.
      exists ([CallOpenConnection (logContext t) (dsn t) (inl c)] ++ calls).
      split; [by rewrite Hh, Hh1, <- app_assoc|]. right.
      destruct Hlast as [Hlast|?]; [left; exists c|by right].
      by rewrite last_app, Hlast.
    + intros [= ->]. eexists. split; [exact Hh1|]. by left.
Qed.



(** X12: the sample that [Collect] sends last is the scrape duration
    computed as the code computes it: the time since the start of
    [Collect], cut at the largest [int64], converted to [float64] and
    multiplied by the [float64] constant [1e-9].  That value is the
    duration in seconds: it is not negative, and it is off from the
    number of nanoseconds divided by [10^9] by no more than one part in
    [2^51]. *)
Theorem scrape_duration_is_elapsed env ctx t w :
  ∃ d,
    last (Collect env ctx t w).1.1 =
      Some (NewMetric (scrapeDurationDesc t)
              (Float64.to_Q (Float64.mul (Float64.of_int d) Float64.c_1e_9))) ∧
    d = Z.min int64_max (now (Collect env ctx t w).2 - now w) ∧
    0 ≤ d ∧
    (0 <= Float64.to_Q (Float64.mul (Float64.of_int d) Float64.c_1e_9))%Q ∧
    (Qabs (Float64.to_Q (Float64.mul (Float64.of_int d) Float64.c_1e_9)
           - (d # 1000000000))
     <= (d # 1000000000) * (1 # 2251799813685248))%Q.
Proof.
  destruct (Collect_target_world env ctx t w) as (_ & _ & Hle2).
  destruct (ping_world env ctx t w) as (Hle1 & _).
  exists (Z.min int64_max (now (Collect env ctx t w).2 - now w)).
  assert (0 ≤ Z.min int64_max (now (Collect env ctx t w).2 - now w)) as Hpos.
  { unfold int64_max. lia. }
  split; [|split; [done|split; [done|]]].
  - assert (time_Sub (now (Collect env ctx t w).2) (now w)
            = Z.min int64_max (now (Collect env ctx t w).2 - now w)) as <-.
    { unfold time_Sub, int64_min, int64_max in *. lia. }
    clear Hpos Hle1 Hle2. rewrite Collect_spec.
    pose proof (ping_fields env ctx t w) as (_ & _ & _ & Hdur & _).
    destruct (ping env ctx t w) as [[[e|] t1] w1]; cbn [fst snd] in *;
      rewrite Hdur; [done|].
    by rewrite app_comm_cons, last_snoc.
  - apply (seconds_accurate _ Hpos). unfold int64_max. lia.
Qed.


Lemma ping_error_comes_from_driver_or_context_witness :
  (∃ calls,
     history (ping Samples.env_down Samples.ctx_live Samples.db1 Samples.w0).2 =
       history Samples.w0 ++ calls ∧
     (last calls =
        Some (CallOpenConnection (logContext Samples.db1) (dsn Samples.db1)
                (inr (errorString "connection refused"))) ∨
      (∃ c, last calls = Some (CallPingDB c (Some (errorString "connection refused")))) ∨
      ctx_Err Samples.ctx_live
        (now (ping Samples.env_down Samples.ctx_live Samples.db1 Samples.w0).2) =
        Some (errorString "connection refused"))) ∧
  (∃ calls,
     history (ping Samples.env_slow_ping Samples.ctx_live Samples.db1 Samples.w0).2 =
       history Samples.w0 ++ calls ∧
     (last calls =
        Some (CallOpenConnection (logContext Samples.db1) (dsn Samples.db1)
                (inr DeadlineExceeded)) ∨
      (∃ c, last calls = Some (CallPingDB c (Some DeadlineExceeded))) ∨
      ctx_Err Samples.ctx_live
        (now (ping Samples.env_slow_ping Samples.ctx_live Samples.db1 Samples.w0).2) =
        Some DeadlineExceeded)).
Proof.
  split.
  - apply (ping_error_comes_from_driver_or_context Samples.env_down Samples.ctx_live
             Samples.db1 Samples.w0).
    reflexivity.
  - apply (ping_error_comes_from_driver_or_context Samples.env_slow_ping
             Samples.ctx_live Samples.db1 Samples.w0).
    reflexivity.
Defined.

End target_more.

(** ** More about [Gather] as a whole *)

Section gather_more.
  Import Target TargetSpec Exporter Overlap.
  Implicit Types (env : Env) (e : exporter) (t : target) (w : World).

Lemma Collect_opened_only env ctx t w : opened_only t (Collect env ctx t w).1.2.
Proof.
  destruct (Collect_calls env ctx t w) as (calls & _ & Hc).
  unfold scrape_calls in Hc. unfold opened_only.
  destruct (conn t) as [c|] eqn:Hconn.
  - destruct Hc as [-> _]. by left.
  - destruct Hc as [[-> _]|(c & -> & _)]; [by left|]. right. eauto.
Qed.

Lemma Forall2_imap_r {A B} (R : A → B → Prop) (g : nat → A → B) (l : list A) :
  (∀ i x, l !! i = Some x → R x (g i x)) → Forall2 R l (imap g l).
Proof.
  revert g. induction l as [|x l IH]; intros g Hg; simpl; constructor.
  - by apply (Hg 0%nat).
  - apply IH. intros i y Hi. by apply (Hg (S i)).
Qed.

Lemma Gather_targets_opened_only env e w :
  config (Gather env e w).2 = config e ∧
  Forall2 opened_only (targets e) (targets (Gather env e w).2).
Proof.
  split; [done|]. simpl. apply Forall2_fmap_r. unfold Gather_runs.
  apply Forall2_imap_r. intros i t _. apply Collect_opened_only.
Qed.

(** X13: calls of [Gather] leave the number and the order of the
    exporter's targets as they are, and all they do to a target is to give
    it the handle it did not have.  This holds of a call that runs alone,
    which leaves the configuration as it is too, and of any number of
    calls that overlap in any way, finished or not, on an exporter that
    was at rest: a target that held a handle then is the same in every
    field, and no scrape ever calls [PingDB] without a handle. *)
Theorem Gathers_keep_the_exporter env e w :
  (config (Gather env e w).2 = config e ∧
   Forall2 opened_only (targets e) (targets (Gather env e w).2)) ∧
  (∀ starts sched,
     Forall2 opened_only (targets e)
       (p_targets (run env sched (gathers_pool e w starts))) ∧
     length (p_targets (run env sched (gathers_pool e w starts))) =
       length (targets e) ∧
     (∀ i t c, targets e !! i = Some t → conn t = Some c →
        p_targets (run env sched (gathers_pool e w starts)) !! i = Some t) ∧
     Forall (λ th, th_pc th ≠ Crashed)
       (p_threads (run env sched (gathers_pool e w starts)))).
Proof.
  split; [apply Gather_targets_opened_only|]. intros starts sched.
  destruct (at_rest_opened_only env sched _ (at_rest_gathers_pool e w starts))
    as [Hts Hths].
  change (p_targets (gathers_pool e w starts)) with (targets e) in Hts.
  split; [done|]. split; [symmetry; by eapply Forall2_length|]. split; [|done].
  intros i t c Hi Hconn.
  destruct (Forall2_lookup_l _ _ _ _ _ Hts Hi) as (t' & Hi' & [->|(Hnone & _)]);
    [done|congruence].
Qed.

(** A measure of channel contents that adds up over the targets. *)
Lemma concat_runs_measure (μ : list Metric → nat)
    (g : nat → target → list Metric * target * World) (l : list target) (k : nat) :
  μ [] = 0%nat → (∀ a b, μ (a ++ b) = (μ a + μ b)%nat) →
  (∀ i t, l !! i = Some t → μ (g i t).1.1 = k) →
  μ (concat ((λ r, r.1.1) <$> imap g l)) = (k * length l)%nat.
Proof.
  intros Hnil Happ. revert g. induction l as [|t l IH]; intros g Hg.
  - simpl. rewrite Hnil. lia.
  - rewrite imap_cons, fmap_cons. cbn [concat].
    rewrite Happ, (Hg 0%nat t eq_refl), (IH (g ∘ S)); [simpl; lia|].
    intros i t' Hi. by apply (Hg (S i)).
Qed.

Lemma count_named_Permutation n (l1 l2 : list Metric) :
  l1 ≡ₚ l2 → count_named n l1 = count_named n l2.
Proof. intros H. unfold count_named. by rewrite H. Qed.

Lemma Collect_counts env ctx t w :
  Name (upDesc t) = upMetricName →
  Name (scrapeDurationDesc t) = scrapeDurationName →
  (∀ c w1 conn1 m,
     c ∈ collectors t → m ∈ (collector_Collect c w1 ctx conn1).2 →
     has_name upMetricName m = false ∧ has_name scrapeDurationName m = false) →
  count_named upMetricName (Collect env ctx t w).1.1 = 1%nat ∧
  count_named scrapeDurationName (Collect env ctx t w).1.1 = 1%nat.
Proof.
  intros Hup Hdur Hcoll. rewrite Collect_spec.
  pose proof (ping_fields env ctx t w) as (_ & _ & Hup1 & Hdur1 & Hcoll1).
  destruct (ping env ctx t w) as [[err t1] w1]. cbn [fst snd] in *.
  assert (∀ v, has_name upMetricName (NewMetric (upDesc t1) v) = true) as Hu1.
  { intros v. unfold has_name. simpl. by rewrite Hup1, Hup. }
  assert (∀ v, has_name scrapeDurationName (NewMetric (upDesc t1) v) = false) as Hu2.
  { intros v. unfold has_name. simpl. by rewrite Hup1, Hup. }
  assert (∀ v, has_name upMetricName (NewMetric (scrapeDurationDesc t1) v) = false) as Hd1.
  { intros v. unfold has_name. simpl. by rewrite Hdur1, Hdur. }
  assert (∀ v, has_name scrapeDurationName (NewMetric (scrapeDurationDesc t1) v) = true)
    as Hd2.
  { intros v. unfold has_name. simpl. by rewrite Hdur1, Hdur. }
  destruct err as [e|]; cbn [fst snd].
  - rewrite !count_named_cons, Hu1, Hu2, Hd1, Hd2. done.
  - rewrite (proj1 (run_collectors_spec env ctx t1 w1)).
    rewrite !count_named_cons, !count_named_app, !count_named_cons, Hu1, Hu2, Hd1, Hd2.
    assert (∀ n, n = upMetricName ∨ n = scrapeDurationName →
      count_named n (interleave (env_schedule env w1) (collector_sends ctx t1 w1)) = 0%nat)
      as Hnone.
    { intros n Hn. apply count_named_none. intros m Hm.
      apply elem_of_interleave in Hm as (q & Hq & Hm).
      unfold collector_sends in Hq. apply list_elem_of_fmap in Hq as (c & -> & Hc).
      rewrite Hcoll1 in Hc.
      destruct (Hcoll c w1 (conn t1) m Hc Hm) as [? ?]. by destruct Hn as [-> | ->]. }
    rewrite !Hnone by auto. done.
Qed.

(** X14: in every [Gather] the channel carries exactly one sample named
    [up] and exactly one named [scrape_duration_seconds] for each target
    of the exporter, when the targets' automatic descriptors bear these
    names and no collector sends a sample under them. *)
Theorem Gather_one_up_per_target env e w :
  (∀ t, t ∈ targets e →
     Name (upDesc t) = upMetricName ∧
     Name (scrapeDurationDesc t) = scrapeDurationName ∧
     ∀ c w1 conn1 m,
       c ∈ collectors t →
       m ∈ (collector_Collect c w1 (Gather_ctx e (now w)) conn1).2 →
       has_name upMetricName m = false ∧ has_name scrapeDurationName m = false) →
  count_named upMetricName (Gather_chan env e w) = length (targets e) ∧
  count_named scrapeDurationName (Gather_chan env e w) = length (targets e).
Proof.
  intros Hts. unfold Gather_chan, Gather_runs.
  rewrite !(count_named_Permutation _ _ _ (interleave_Permutation _ _)).
  assert (∀ i t, targets e !! i = Some t →
    count_named upMetricName
      (Collect env (Gather_ctx e (now w)) t (spawn w i)).1.1 = 1%nat ∧
    count_named scrapeDurationName
      (Collect env (Gather_ctx e (now w)) t (spawn w i)).1.1 = 1%nat) as Hone.
  { intros i t Hi. destruct (Hts t) as (? & ? & ?); [by eapply list_elem_of_lookup_2|].
    by apply Collect_counts. }
  split.
  - rewrite (concat_runs_measure (count_named upMetricName) _ _ 1);
      [lia|done|apply count_named_app|]. intros i t Hi. by apply Hone.
  - rewrite (concat_runs_measure (count_named scrapeDurationName) _ _ 1);
      [lia|done|apply count_named_app|]. intros i t Hi. by apply Hone.
Qed.

(** After the deadline: the error of the probe and the calls it makes. *)
Lemma ping_expired_calls env ctx t w :
  ctx_Err ctx (now w) ≠ None →
  (ping env ctx t w).1.1 =
    Some match conn t, (env_OpenConnection env w ctx (logContext t) (dsn t)).2 with
         | None, inr err => err
         | _, _ => DeadlineExceeded
         end ∧
  history (ping env ctx t w).2 =
    history w ++
    match conn t with
    | Some _ => []
    | None =>
        [CallOpenConnection (logContext t) (dsn t)
           (env_OpenConnection env w ctx (logContext t) (dsn t)).2]
    end.
Proof.
  intros Hexp.
  assert (∀ c w1, now w ≤ now w1 →
    ping_handle env ctx c w1 = (Some DeadlineExceeded, w1)) as Hh.
  { intros c w1 Hle. unfold ping_handle.
    pose proof (ctx_Err_mono ctx _ _ Hle Hexp) as Hw1.
    destruct (ctx_Err_cases ctx (now w1)) as [H|H]; rewrite H; [|done].
    rewrite H in Hw1. by rewrite <- Hw1 in Hexp. }
  destruct (conn t) as [c|] eqn:Hc.
  - rewrite (ping_with_handle _ _ _ _ _ Hc), Hh by lia. simpl.
    by rewrite app_nil_r.
  - rewrite (ping_without_handle _ _ _ _ Hc).
    pose proof (OpenConnection_world env ctx (logContext t) (dsn t) w)
      as (Hle & Hhist & Hr).
    destruct (OpenConnection env ctx (logContext t) (dsn t) w) as [[c|e] w1];
      simpl in *; rewrite <- Hr.
    + by rewrite Hh by lia.
    + done.
Qed.

Lemma Collect_expired_calls env ctx t w :
  ctx_Err ctx (now w) ≠ None →
  (Collect env ctx t w).1.1 =
    [NewInvalidMetric (logContext t)
       match conn t, (env_OpenConnection env w ctx (logContext t) (dsn t)).2 with
       | None, inr err => err
       | _, _ => DeadlineExceeded
       end;
     NewMetric (upDesc t) (boolToFloat64 false);
     NewMetric (scrapeDurationDesc t)
       (seconds (time_Sub (now (Collect env ctx t w).2) (now w)))] ∧
  history (Collect env ctx t w).2 =
    history w ++
    match conn t with
    | Some _ => []
    | None =>
        [CallOpenConnection (logContext t) (dsn t)
           (env_OpenConnection env w ctx (logContext t) (dsn t)).2]
    end.
Proof.
  intros Hexp. destruct (ping_expired_calls env ctx t w Hexp) as [He Hh].
  rewrite Collect_spec.
  pose proof (ping_fields env ctx t w) as (Hlc & _ & Hup & Hdur & _).
  destruct (ping env ctx t w) as [[err' t1] w1]. cbn [fst snd] in *. subst err'.
  cbn [fst snd]. by rewrite Hlc, Hup, Hdur.
Qed.

(** X15: with a scrape timeout that is zero or negative the context of the
    scrape is done from the start.  A target that holds a handle then makes
    no call at all; a target without one calls [OpenConnection], once, and
    nothing else.  No collector runs: every target sends just an
    invalid-metric (with the error of the failed open, and with the
    context's error otherwise), [up] with value 0 and the scrape duration,
    and the channel carries three samples per target. *)
Theorem Gather_without_budget env e w :
  ScrapeTimeout (Globals (config e)) ≤ 0 →
  (∀ i t, targets e !! i = Some t →
     ∃ d,
       (Collect env (Gather_ctx e (now w)) t (spawn w i)).1.1 =
         [NewInvalidMetric (logContext t)
            match conn t,
                  (env_OpenConnection env (spawn w i) (Gather_ctx e (now w))
                     (logContext t) (dsn t)).2 with
            | None, inr err => err
            | _, _ => DeadlineExceeded
            end;
          NewMetric (upDesc t) (boolToFloat64 false);
          NewMetric (scrapeDurationDesc t) (seconds d)] ∧
       history (Collect env (Gather_ctx e (now w)) t (spawn w i)).2 =
         history w ++
         match conn t with
         | Some _ => []
         | None =>
             [CallOpenConnection (logContext t) (dsn t)
                (env_OpenConnection env (spawn w i) (Gather_ctx e (now w))
                   (logContext t) (dsn t)).2]
         end) ∧
  length (Gather_chan env e w) = (3 * length (targets e))%nat.
Proof.
  intros Hbudget.
  assert (∀ i, ctx_Err (Gather_ctx e (now w)) (now (spawn w i)) ≠ None) as Hexp.
  { intros i. unfold ctx_Err, Gather_ctx, WithTimeout. simpl.
    rewrite bool_decide_eq_true_2 by lia. done. }
  assert (∀ i t, ∃ d,
       (Collect env (Gather_ctx e (now w)) t (spawn w i)).1.1 =
         [NewInvalidMetric (logContext t)
            match conn t,
                  (env_OpenConnection env (spawn w i) (Gather_ctx e (now w))
                     (logContext t) (dsn t)).2 with
            | None, inr err => err
            | _, _ => DeadlineExceeded
            end;
          NewMetric (upDesc t) (boolToFloat64 false);
          NewMetric (scrapeDurationDesc t) (seconds d)] ∧
       history (Collect env (Gather_ctx e (now w)) t (spawn w i)).2 =
         history (spawn w i) ++
         match conn t with
         | Some _ => []
         | None =>
             [CallOpenConnection (logContext t) (dsn t)
                (env_OpenConnection env (spawn w i) (Gather_ctx e (now w))
                   (logContext t) (dsn t)).2]
         end) as Hthree.
  { intros i t.
    destruct (Collect_expired_calls env _ t _ (Hexp i)) as [Hsent Hhist].
    eexists. split; [exact Hsent|exact Hhist]. }
  split; [by auto|]. unfold Gather_chan, Gather_runs.
  rewrite (Permutation_length (interleave_Permutation _ _)).
  apply (concat_runs_measure length); [done|apply length_app|].
  intros i t _. destruct (Hthree i t) as (d & -> & _). done.
Qed.

Lemma Gather_one_up_per_target_witness :
  count_named upMetricName
    (Gather_chan Samples.env_up (Samples.exporter_of [Samples.db1; Samples.db1])
       Samples.w0) = 2%nat ∧
  count_named scrapeDurationName
    (Gather_chan Samples.env_up (Samples.exporter_of [Samples.db1; Samples.db1])
       Samples.w0) = 2%nat.
Proof.
  apply (Gather_one_up_per_target Samples.env_up
           (Samples.exporter_of [Samples.db1; Samples.db1]) Samples.w0).
  intros t Ht. simpl in Ht. elem_cases.
  - split; [reflexivity|]. split; [reflexivity|].
    intros c w1 conn1 m Hc Hm. simpl in Hc. elem_cases; simpl in Hm; elem_cases; done.
  - split; [reflexivity|]. split; [reflexivity|].
    intros c w1 conn1 m Hc Hm. simpl in Hc. elem_cases; simpl in Hm; elem_cases; done.
Defined.

Lemma Gather_without_budget_witness :
  (∃ d,
     (Collect Samples.env_up (Gather_ctx MoreSamples.exporter_no_budget 100)
        Samples.db1 (spawn Samples.w0 0)).1.1 =
       [NewInvalidMetric (logContext Samples.db1) DeadlineExceeded;
        NewMetric (upDesc Samples.db1) (boolToFloat64 false);
        NewMetric (scrapeDurationDesc Samples.db1) (seconds d)] ∧
     history (Collect Samples.env_up (Gather_ctx MoreSamples.exporter_no_budget 100)
                Samples.db1 (spawn Samples.w0 0)).2 =
       [CallOpenConnection (logContext Samples.db1) (dsn Samples.db1)
          (inl (Handle 7))]) ∧
  length (Gather_chan Samples.env_up MoreSamples.exporter_no_budget Samples.w0) = 6%nat.
Proof.
  destruct (Gather_without_budget Samples.env_up MoreSamples.exporter_no_budget
              Samples.w0) as [Hper Hlen]; [simpl; lia|].
  split; [|exact Hlen]. exact (Hper 0%nat Samples.db1 eq_refl).
Defined.
End gather_more.

(** ** [Gather] and the order of the sends *)

Section schedule_facts.
  Import Target TargetSpec Exporter ExporterSpec GatherRef Schedules.
  Implicit Types (env : Env) (e : exporter) (t : target) (w : World)
    (l : list Metric).

















End schedule_facts.
